(** * tinyssh: a shallow embedding of the configuration loader, the
  password callback, the host-key store and the session handler.

  Go values are modelled as the code has them: [string] for Go strings,
  [list Byte.byte] for [[]byte], [Z] for [int], [uint16] and [uint32]
  (with the wrap-around of conversions written out), [option] for
  pointers that may be [nil], [gmap] for Go maps. *)

From Stdlib Require Import ZArith Lia Bool.
From Stdlib Require Import Strings.String Strings.Ascii Strings.Byte.
From stdpp Require Import base option list gmap strings pretty relations.

Local Open Scope string_scope.
Local Open Scope list_scope.
Local Open Scope Z_scope.

(** ** Package config (internal/config) *)

Module config.

(** [type User struct]. *)
Record User := mkUser { Username : string; Password : string }.

(** [type Config struct]. *)
Record Config := mkConfig {
  ListenAddress : string;
  ListenPort : Z;
  HostKeyPath : string;
  Shell : string;
  Users : list User;
  configDir : string
}.

(** The errors [Load] can return. *)
Inductive error :=
| ErrReadConfig
| ErrParseConfig
| ErrListenAddressRequired
| ErrNoUsers
| ErrEmptyUsername
| ErrNoPassword (username : string)
| ErrDuplicateUser (username : string).

(** [Config.Credentials]: later entries overwrite earlier ones. *)
Definition Credentials (c : Config) : gmap string string :=
  foldl (fun creds user => <[Username user := Password user]> creds) ∅ (Users c).

Section WithRuntime.
(** Functions of the Go standard library and the process environment
    the loader reads. *)
Variable filepath_Dir : string -> string.
Variable filepath_Join : string -> string -> string.
Variable filepath_IsAbs : string -> bool.
Variable os_Getenv : string -> string.
Variable strings_TrimSpace : string -> string.
Variable os_ReadFile : string -> option (list Byte.byte).
Variable json_Unmarshal : list Byte.byte -> option Config.

Definition with_configDir (d : string) (c : Config) : Config :=
  mkConfig (ListenAddress c) (ListenPort c) (HostKeyPath c) (Shell c) (Users c) d.

(** [Config.applyDefaults]; [fmt.Sprintf(":%d", n)] is [":" +:+ pretty n]. *)
Definition applyDefaults (c : Config) : Config :=
  let addr :=
    if String.eqb (ListenAddress c) "" then
      if 0 <? ListenPort c then ":" +:+ pretty (ListenPort c) else ":2222"
    else ListenAddress c in
  let key :=
    if String.eqb (HostKeyPath c) "" then
      filepath_Join (configDir c) "tinyssh_host_key"
    else if negb (filepath_IsAbs (HostKeyPath c)) then
      filepath_Join (configDir c) (HostKeyPath c)
    else HostKeyPath c in
  let sh :=
    if String.eqb (Shell c) "" then
      let shell := os_Getenv "SHELL" in
      if negb (String.eqb shell "") then shell else "/bin/sh"
    else Shell c in
  mkConfig addr (ListenPort c) key sh (Users c) (configDir c).

(** The loop of [Config.validate] over the users, with its [seen] set. *)
Fixpoint validate_users (seen : gset string) (us : list User) : option error :=
  match us with
  | [] => None
  | user :: rest =>
      let username := strings_TrimSpace (Username user) in
      if String.eqb username "" then Some ErrEmptyUsername
      else if String.eqb (Password user) "" then Some (ErrNoPassword username)
      else if decide (username ∈ seen) then Some (ErrDuplicateUser username)
      else validate_users ({[username]} ∪ seen) rest
  end.

(** [Config.validate]: [None] is Go's [nil] error. *)
Definition validate (c : Config) : option error :=
  if String.eqb (ListenAddress c) "" then Some ErrListenAddressRequired
  else if (length (Users c) =? 0)%nat then Some ErrNoUsers
  else validate_users ∅ (Users c).

(** [Load]. *)
Definition Load (path : string) : Config + error :=
  match os_ReadFile path with
  | None => inr ErrReadConfig
  | Some raw =>
      match json_Unmarshal raw with
      | None => inr ErrParseConfig
      | Some parsed =>
          let cfg := applyDefaults (with_configDir (filepath_Dir path) parsed) in
          match validate cfg with
          | Some err => inr err
          | None => inl cfg
          end
      end
  end.
End WithRuntime.

End config.

(** ** Go runtime values shared by package server *)

(** [uint16(x)] and [uint32(x)] conversions of an integer. *)
Definition uint16 (x : Z) : Z := x mod 2 ^ 16.
Definition uint32 (x : Z) : Z := x mod 2 ^ 32.

(** [[]byte(s)] for a Go string. *)
Definition bytes_of_string (s : string) : list Byte.byte := list_byte_of_string s.

(** Bytes are compared with [==]. *)
#[global] Instance byte_eq_dec : EqDecision Byte.byte := Byte.byte_eq_dec.

(** A byte as the unsigned 8-bit integer it holds. *)
Definition byte_val (b : Byte.byte) : Z := Z.of_N (Byte.to_N b).

(** [syscall.WaitStatus] (linux): a [uint32] with the exit code in bits 8-15
    and the terminating signal in bits 0-6. *)
Definition WaitStatus := Z.

Definition ws_mask : Z := 0x7F.
Definition ws_exited : Z := 0x00.
Definition ws_stopped : Z := 0x7F.
Definition ws_shift : Z := 8.

Definition Exited (w : WaitStatus) : bool := Z.land w ws_mask =? ws_exited.

Definition Signaled (w : WaitStatus) : bool :=
  negb (Z.land w ws_mask =? ws_stopped) && negb (Z.land w ws_mask =? ws_exited).

(** [WaitStatus.ExitStatus], which [ProcessState.ExitCode] returns. *)
Definition ExitStatus (w : WaitStatus) : Z :=
  if negb (Exited w) then -1 else Z.land (Z.shiftr w ws_shift) 0xFF.

(** [syscall.Errno], as far as the code tells them apart. *)
Inductive Errno := ENOENT | ENOTDIR | EISDIR | EACCES | EEXIST.

(** Go [error] values: [None] of [option error] is the [nil] error. *)
Inductive error :=
| errorString (msg : string)
| wrapError (msg : string) (err : error)
| PathError (op : string) (errno : Errno)
| ExitError (status : WaitStatus).

(** [errors.Is(err, os.ErrNotExist)]. *)
Fixpoint is_ErrNotExist (err : error) : bool :=
  match err with
  | PathError _ ENOENT => true
  | wrapError _ inner => is_ErrNotExist inner
  | _ => false
  end.

(** [ExitError.ExitCode], through the embedded [ProcessState]. *)
Definition ExitCode (status : WaitStatus) : Z := ExitStatus status.

(** ** crypto/subtle *)

(** [subtle.ConstantTimeByteEq]: [int((uint32(x^y) - 1) >> 31)]. *)
Definition ConstantTimeByteEq (x y : Z) : Z :=
  Z.shiftr (uint32 (uint32 (Z.lxor x y) - 1)) 31.

(** The loop [v |= x[i] ^ y[i]] of [subtle.ConstantTimeCompare]. *)
Fixpoint xor_fold (v : Z) (x y : list Byte.byte) : Z :=
  match x, y with
  | a :: x', b :: y' => xor_fold (Z.lor v (Z.lxor (byte_val a) (byte_val b))) x' y'
  | _, _ => v
  end.

(** [subtle.ConstantTimeCompare]. *)
Definition ConstantTimeCompare (x y : list Byte.byte) : Z :=
  if negb (length x =? length y)%nat then 0
  else ConstantTimeByteEq (xor_fold 0 x y) 0.

(** ** Package server: server.go *)

Module server.

(** [Server.validateUser]: the permissions it returns are always [nil], so
    only the error is kept; [None] accepts the attempt. *)
Definition validateUser (creds : gmap string string) (user : string)
    (password : list Byte.byte) : option error :=
  match creds !! user with
  | None => Some (errorString ("unknown user " +:+ user))
  | Some expected =>
      if negb (ConstantTimeCompare (bytes_of_string expected) password =? 1)
      then Some (errorString ("invalid credentials for " +:+ user))
      else None
  end.


(** *** The file system the host-key store works on *)

(** A path is the list of its components, [filepath.Dir] drops the last. *)
Abbreviation path := (list string) (only parsing).

Definition filepath_Dir (p : path) : path := removelast p.

(** A directory entry: a regular file with its bytes, or a directory;
    both carry their permission bits. *)
Inductive node :=
| RegFile (content : list Byte.byte) (perm : Z)
| Directory (perm : Z).

(** The calls the store makes, in program order. *)
Inductive fs_call :=
| CallMkdirAll (p : path) (perm : Z)
| CallReadFile (p : path)
| CallWriteFile (p : path) (data : list Byte.byte) (perm : Z).

Abbreviation filesystem := (gmap (list string) node) (only parsing).

(** [os.MkdirAll] on the prefixes of a path, shortest first: an existing
    directory is kept, a regular file in the way is [ENOTDIR], a missing
    component is created. [done] is the prefix handled so far. *)
Fixpoint mkdir_from (done todo : path) (perm : Z) (fs : filesystem) : filesystem + error :=
  let here :=
    match fs !! done with
    | Some (Directory _) => inl fs
    | Some (RegFile _ _) => inr (PathError "mkdir" ENOTDIR)
    | None => inl (<[done := Directory perm]> fs)
    end in
  match todo with
  | [] => here
  | c :: rest =>
      match here with
      | inl fs' => mkdir_from (done ++ [c]) rest perm fs'
      | inr e => inr e
      end
  end.

Definition MkdirAll (p : path) (perm : Z) (fs : filesystem) : filesystem + error :=
  match p with
  | [] => inl fs
  | c :: rest => mkdir_from [c] rest perm fs
  end.

(** Modes [0700] and [0600] (octal), and the owner-read and owner-write
    permission bits. *)
Definition perm_dir : Z := 448.
Definition perm_key : Z := 384.

Definition owner_readable (perm : Z) : bool := Z.testbit perm 8.
Definition owner_writable (perm : Z) : bool := Z.testbit perm 7.

(** [os.ReadFile]. *)
Definition ReadFile (p : path) (fs : filesystem) : list Byte.byte + error :=
  match fs !! p with
  | None => inr (PathError "open" ENOENT)
  | Some (Directory _) => inr (PathError "read" EISDIR)
  | Some (RegFile content perm) =>
      if owner_readable perm then inl content else inr (PathError "open" EACCES)
  end.

(** [os.WriteFile]: creates the file with [perm], or truncates and rewrites
    an existing one keeping its permission bits. *)
Definition WriteFile (p : path) (data : list Byte.byte) (perm : Z) (fs : filesystem)
    : filesystem + error :=
  match fs !! p with
  | Some (Directory _) => inr (PathError "open" EISDIR)
  | Some (RegFile _ old) =>
      if owner_writable old then inl (<[p := RegFile data old]> fs)
      else inr (PathError "open" EACCES)
  | None =>
      match fs !! filepath_Dir p with
      | Some (Directory _) => inl (<[p := RegFile data perm]> fs)
      | Some (RegFile _ _) => inr (PathError "open" ENOTDIR)
      | None => match p with
                | [_] => inl (<[p := RegFile data perm]> fs)
                | _ => inr (PathError "open" ENOENT)
                end
      end
  end.

Section HostKey.
(** The key material and the signer are those of crypto/rsa and
    x/crypto/ssh; the random source decides what [rsa.GenerateKey] gives. *)
Variable PrivateKey : Type.
Variable Signer : Type.
Variable rsa_GenerateKey : Z -> PrivateKey + error.
Variable x509_MarshalPKCS1PrivateKey : PrivateKey -> list Byte.byte.
Variable pem_EncodeToMemory : string -> list Byte.byte -> list Byte.byte.
Variable ssh_ParsePrivateKey : list Byte.byte -> Signer + error.

(** [generateHostKey]. *)
Definition generateHostKey : list Byte.byte + error :=
  match rsa_GenerateKey 4096 with
  | inr err => inr (wrapError "generate rsa key" err)
  | inl key =>
      inl (pem_EncodeToMemory "RSA PRIVATE KEY" (x509_MarshalPKCS1PrivateKey key))
  end.

(** The last step of [loadOrCreateHostKey]. *)
Definition parse_host_key (pemBytes : list Byte.byte) : Signer + error :=
  match ssh_ParsePrivateKey pemBytes with
  | inr err => inr (wrapError "parse host key" err)
  | inl signer => inl signer
  end.

(** [loadOrCreateHostKey]: the result, the file system it leaves and the
    calls it made on it. *)
Definition loadOrCreateHostKey (p : path) (fs : filesystem)
    : (Signer + error) * filesystem * list fs_call :=
  match MkdirAll (filepath_Dir p) perm_dir fs with
  | inr err =>
      (inr (wrapError "ensure host key directory" err), fs,
       [CallMkdirAll (filepath_Dir p) perm_dir])
  | inl fs1 =>
      match ReadFile p fs1 with
      | inl pemBytes =>
          (parse_host_key pemBytes, fs1,
           [CallMkdirAll (filepath_Dir p) perm_dir; CallReadFile p])
      | inr err =>
          if is_ErrNotExist err then
            match generateHostKey with
            | inr gerr =>
                (inr gerr, fs1, [CallMkdirAll (filepath_Dir p) perm_dir; CallReadFile p])
            | inl pemBytes =>
                match WriteFile p pemBytes perm_key fs1 with
                | inr werr =>
                    (inr (wrapError "write host key" werr), fs1,
                     [CallMkdirAll (filepath_Dir p) perm_dir; CallReadFile p;
                      CallWriteFile p pemBytes perm_key])
                | inl fs2 =>
                    (parse_host_key pemBytes, fs2,
                     [CallMkdirAll (filepath_Dir p) perm_dir; CallReadFile p;
                      CallWriteFile p pemBytes perm_key])
                end
            end
          else
            (inr (wrapError "read host key" err), fs1,
             [CallMkdirAll (filepath_Dir p) perm_dir; CallReadFile p])
      end
  end.

End HostKey.

(** Every proper ancestor directory named by [d] is there. *)
Definition dirs_exist (fs : filesystem) (d : path) : Prop :=
  forall k, (0 < k <= length d)%nat ->
    exists perm, fs !! take k d = Some (Directory perm).

(** ** Package server: session.go *)

(** The OS signals the translator can give. *)
Inductive Signal := SIGHUP | SIGINT | SIGQUIT | SIGKILL | SIGTERM.

(** [strings.TrimPrefix]: [strip_prefix] gives the rest when [prefix] leads. *)
Fixpoint strip_prefix (prefix s : string) : option string :=
  match prefix, s with
  | EmptyString, _ => Some s
  | String a prefix', String b s' =>
      if Ascii.eqb a b then strip_prefix prefix' s' else None
  | String _ _, EmptyString => None
  end.

Definition TrimPrefix (s prefix : string) : string :=
  match strip_prefix prefix s with
  | Some rest => rest
  | None => s
  end.

(** [sshSignalToOS]: [None] is the [nil] signal. *)
Definition sshSignalToOS (signal : string) : option Signal :=
  let signal := TrimPrefix signal "SIG" in
  if String.eqb signal "INT" then Some SIGINT
  else if String.eqb signal "TERM" then Some SIGTERM
  else if String.eqb signal "KILL" then Some SIGKILL
  else if String.eqb signal "QUIT" then Some SIGQUIT
  else if String.eqb signal "HUP" then Some SIGHUP
  else None.

(** [pty.Winsize]; the pixel fields are never set by this code. *)
Record Winsize := mkWinsize { ws_Rows : Z; ws_Cols : Z }.

(** The PTY master behind [*os.File]: whether it was closed, and the
    window size the terminal holds. *)
Record File := mkFile { closed : bool; winsize : Winsize }.

(** [exec.Cmd]: [Args] holds the program name first, [Process] is set once
    the child runs. *)
Record Cmd := mkCmd {
  Path : string;
  Args : list string;
  Env : list string;
  Dir : string;
  Process : option Z
}.

(** [ssh.Request]. *)
Record Request := mkRequest {
  Type_ : string;
  WantReply : bool;
  Payload : list Byte.byte
}.

(** The payload structs of the request loop. *)
Record ptyReqMsg := mkPtyReq {
  pty_Term : string; pty_Cols : Z; pty_Rows : Z;
  pty_Width : Z; pty_Height : Z; pty_Modes : string
}.
Record envMsg := mkEnv { env_Key : string; env_Value : string }.
Record windowChangeMsg := mkWindowChange {
  wc_Cols : Z; wc_Rows : Z; wc_Width : Z; wc_Height : Z
}.
Record execMsg := mkExec { exec_Command : string }.
Record signalMsg := mkSignal { sig_Signal : string }.

(** [ssh.Unmarshal] at each payload struct; [None] is a parse error. *)
Class Unmarshal := {
  unmarshal_ptyReq : list Byte.byte -> option ptyReqMsg;
  unmarshal_env : list Byte.byte -> option envMsg;
  unmarshal_windowChange : list Byte.byte -> option windowChangeMsg;
  unmarshal_exec : list Byte.byte -> option execMsg;
  unmarshal_signal : list Byte.byte -> option signalMsg
}.

(** The goroutines a session starts. A reaper first blocks in [c.Wait()]
    and then, holding the error it got, calls [finished.Do]. *)
Inductive goroutine :=
| GoCopyPtyToChannel
| GoCopyChannelToPty
| GoCopyChannelToStdin
| GoCtxWatch
| GoReaperWait (c : Cmd)
| GoReaperDo (err : option error).

(** What a session does to the outside, in order. *)
Inductive event :=
| EvReply (ok : bool)
| EvLog (level msg : string) (err : error)
| EvPtyStart (c : Cmd) (sz : option Winsize)
| EvCmdStart (c : Cmd)
| EvGo (g : goroutine)
| EvSetsize (ws : Winsize)
| EvSignal (pid : Z) (sig : Signal)
| EvSendRequest (name : string) (wantReply : bool) (status : Z)
| EvPtmxClose
| EvChildExit (pid : Z)
| EvWaitReturn (pid : Z) (err : option error)
| EvCloseWrite
| EvClose.

(** The variables [handle] declares and its closures share. [finished] is
    the [sync.Once]: [true] once its function has run. *)
Record session := mkSession {
  env : list string;
  cmd : option Cmd;
  ptmx : option File;
  wantPTY : bool;
  cols : Z;
  rows : Z;
  finished : bool
}.

Definition set_env (v : list string) (s : session) : session :=
  mkSession v (cmd s) (ptmx s) (wantPTY s) (cols s) (rows s) (finished s).
Definition set_cmd (v : option Cmd) (s : session) : session :=
  mkSession (env s) v (ptmx s) (wantPTY s) (cols s) (rows s) (finished s).
Definition set_ptmx (v : option File) (s : session) : session :=
  mkSession (env s) (cmd s) v (wantPTY s) (cols s) (rows s) (finished s).
Definition set_wantPTY (v : bool) (s : session) : session :=
  mkSession (env s) (cmd s) (ptmx s) v (cols s) (rows s) (finished s).
Definition set_cols (v : Z) (s : session) : session :=
  mkSession (env s) (cmd s) (ptmx s) (wantPTY s) v (rows s) (finished s).
Definition set_rows (v : Z) (s : session) : session :=
  mkSession (env s) (cmd s) (ptmx s) (wantPTY s) (cols s) v (finished s).
Definition set_finished (v : bool) (s : session) : session :=
  mkSession (env s) (cmd s) (ptmx s) (wantPTY s) (cols s) (rows s) v.

(** A computation over the session variables that also records events. *)
Definition M (A : Type) : Type := session -> A * session * list event.

Definition ret {A} (a : A) : M A := fun s => (a, s, []).

Definition bind {A B} (m : M A) (k : A -> M B) : M B :=
  fun s =>
    let '(a, s1, t1) := m s in
    let '(b, s2, t2) := k a s1 in
    (b, s2, t1 ++ t2).

Definition get : M session := fun s => (s, s, []).
Definition modify (f : session -> session) : M unit := fun s => (tt, f s, []).
Definition emit (e : event) : M unit := fun s => (tt, s, [e]).

Declare Scope session_scope.
Delimit Scope session_scope with M.
Notation "x ← y ; z" := (bind y (fun x => z))
  (at level 20, y at level 100, z at level 200, only parsing) : session_scope.
Notation "x ;; z" := (bind x (fun _ => z))
  (at level 100, z at level 200, only parsing, right associativity) : session_scope.
Local Open Scope session_scope.

(** What the OS answers when [start] asks for a child: the default window
    size of a fresh PTY or the error of [pty.Start]/[pty.StartWithSize], the
    error of [c.StdinPipe], the error of [c.Start], and the child's pid. *)
Record spawn_outcome := mkOutcome {
  pty_start : Winsize + error;
  stdin_pipe : option error;
  cmd_start : option error;
  new_pid : Z
}.

(** [sessionHandler], as far as [handle] reads it: [h.user] and
    [h.srv.cfg.Shell]. *)
Record sessionHandler := mkHandler { user : string; shell : string }.

(** The status [sendExitStatus] computes from the error of [c.Wait()]. *)
Definition exit_status (err : option error) : Z :=
  match err with
  | None => uint32 0
  | Some (ExitError st) =>
      let code := ExitCode st in
      if 0 <=? code then uint32 code else 255
  | Some _ => 255
  end.

(** [sessionHandler.sendExitStatus]. *)
Definition sendExitStatus (err : option error) : M unit :=
  emit (EvSendRequest "exit-status" false (exit_status err)).

(** [err == nil]. *)
Definition is_nil (err : option error) : bool :=
  match err with
  | None => true
  | Some _ => false
  end.

(** [req.Reply(ok, nil)] under [if req.WantReply]. *)
Definition reply (req : Request) (ok : bool) : M unit :=
  if WantReply req then emit (EvReply ok) else ret tt.

(** [pty.Setsize]: the ioctl fails on a closed file, and the code drops
    the error. *)
Definition Setsize (ws : Winsize) : M unit :=
  s ← get;
  match ptmx s with
  | Some f =>
      emit (EvSetsize ws);;
      if closed f then ret tt else modify (set_ptmx (Some (mkFile false ws)))
  | None => ret tt
  end.

(** [ptmx.Close()]. *)
Definition Close_ptmx : M unit :=
  s ← get;
  match ptmx s with
  | Some f => emit EvPtmxClose;; modify (set_ptmx (Some (mkFile true (winsize f))))
  | None => ret tt
  end.

(** [cmd.Process.Signal(sig)] under [cmd != nil && cmd.Process != nil]. *)
Definition signal_child (sig : Signal) : M unit :=
  s ← get;
  match cmd s with
  | Some c =>
      match Process c with
      | Some pid => emit (EvSignal pid sig)
      | None => ret tt
      end
  | None => ret tt
  end.

(** The function given to [finished.Do] by the reaper, under the [Once]. *)
Definition finished_Do (err : option error) : M unit :=
  s ← get;
  if finished s then ret tt
  else
    modify (set_finished true);;
    sendExitStatus err;;
    s' ← get;
    match ptmx s' with
    | Some _ => Close_ptmx
    | None => ret tt
    end.

(** The goroutine that waits for [ctx.Done()]. *)
Definition ctx_watch : M unit := signal_child SIGTERM.

Section Handler.
Context {U : Unmarshal}.
Variable h : sessionHandler.
(** [os.Environ()]. *)
Variable environ : list string.

(** The variables of [handle] before the first request. *)
Definition initial : session :=
  mkSession
    (environ ++ ["USER=" +:+ user h; "LOGNAME=" +:+ user h; "HOME=/";
                 "SHELL=" +:+ shell h])
    None None false 0 0 false.

(** The PTY branch of [start]: [inl true] is [started = true], [inr] the
    error returned. *)
Definition start_pty (o : spawn_outcome) (command : string) (c : Cmd)
    : M (bool + error) :=
  s ← get;
  let ws_cols := if 0 <? cols s then uint16 (cols s) else 0 in
  let ws_rows := if 0 <? rows s then uint16 (rows s) else 0 in
  let ws := mkWinsize ws_rows ws_cols in
  let sz := if (ws_cols =? 0) && (ws_rows =? 0) then None else Some ws in
  match pty_start o with
  | inr err =>
      modify (set_ptmx None);;
      emit (EvLog "ERROR" "start pty shell failed" err);;
      ret (inr err)
  | inl os_default =>
      modify (set_ptmx (Some (mkFile false (default os_default sz))));;
      emit (EvPtyStart c sz);;
      emit (EvGo GoCopyPtyToChannel);;
      emit (EvGo GoCopyChannelToPty);;
      ret (inl true)
  end.

(** The branch of [start] without a PTY. *)
Definition start_pipe (o : spawn_outcome) (command : string) : M (bool + error) :=
  match stdin_pipe o with
  | Some err =>
      emit (EvLog "ERROR" "allocate stdin pipe failed" err);;
      ret (inr err)
  | None =>
      emit (EvGo GoCopyChannelToStdin);;
      ret (inl false)
  end.

(** [if !started { if err := c.Start(); err != nil { ... } }]. *)
Definition start_cmd (o : spawn_outcome) (c : Cmd) (started : bool) : M (option error) :=
  if negb started then
    match cmd_start o with
    | Some err =>
        s ← get;
        match ptmx s with
        | Some _ => Close_ptmx;; modify (set_ptmx None)
        | None => ret tt
        end;;
        emit (EvLog "ERROR" "launch shell failed" err);;
        ret (Some err)
    | None => emit (EvCmdStart c);; ret None
    end
  else ret None.

(** The closure [start] of [handle]. *)
Definition start (o : spawn_outcome) (command : string) : M (option error) :=
  s ← get;
  match cmd s with
  | Some _ =>
      let err := errorString "session already running" in
      emit (EvLog "WARN" "session start rejected" err);;
      ret (Some err)
  | None =>
      let args := if negb (String.eqb command "") then ["-c"; command] else [] in
      let c := mkCmd (shell h) (shell h :: args) (env s) "/" (Some (new_pid o)) in
      r ← (if wantPTY s then start_pty o command c else start_pipe o command);
      match r with
      | inr err => ret (Some err)
      | inl started =>
          e ← start_cmd o c started;
          match e with
          | Some err => ret (Some err)
          | None =>
              modify (set_cmd (Some c));;
              emit (EvGo GoCtxWatch);;
              emit (EvGo (GoReaperWait c));;
              ret None
          end
      end
  end.

(** One turn of the loop [for req := range h.requests] of [handle]. *)
Definition handle_request (o : spawn_outcome) (req : Request) : M unit :=
  if String.eqb (Type_ req) "pty-req" then
    match unmarshal_ptyReq (Payload req) with
    | None => reply req false
    | Some payload =>
        modify (set_wantPTY true);;
        modify (set_cols (pty_Cols payload));;
        modify (set_rows (pty_Rows payload));;
        (if negb (String.eqb (pty_Term payload) "") then
           modify (fun s => set_env (env s ++ ["TERM=" +:+ pty_Term payload]) s)
         else ret tt);;
        reply req true
    end
  else if String.eqb (Type_ req) "env" then
    match unmarshal_env (Payload req) with
    | None => reply req false
    | Some payload =>
        if negb (String.eqb (env_Key payload) "") then
          modify (fun s =>
            set_env (env s ++ [env_Key payload +:+ "=" +:+ env_Value payload]) s);;
          reply req true
        else reply req false
    end
  else if String.eqb (Type_ req) "window-change" then
    s ← get;
    match ptmx s with
    | Some _ =>
        match unmarshal_windowChange (Payload req) with
        | Some payload =>
            modify (set_cols (wc_Cols payload));;
            modify (set_rows (wc_Rows payload));;
            Setsize (mkWinsize (uint16 (wc_Rows payload)) (uint16 (wc_Cols payload)))
        | None => ret tt
        end
    | None => ret tt
    end;;
    reply req true
  else if String.eqb (Type_ req) "shell" then
    err ← start o "";
    reply req (is_nil err);;
    match err with
    | Some e => emit (EvLog "ERROR" "shell request failed" e)
    | None => ret tt
    end
  else if String.eqb (Type_ req) "exec" then
    match unmarshal_exec (Payload req) with
    | None => reply req false
    | Some payload =>
        err ← start o (exec_Command payload);
        reply req (is_nil err);;
        match err with
        | Some e => emit (EvLog "ERROR" "exec request failed" e)
        | None => ret tt
        end
    end
  else if String.eqb (Type_ req) "signal" then
    match unmarshal_signal (Payload req) with
    | Some payload =>
        match sshSignalToOS (sig_Signal payload) with
        | Some sig => signal_child sig
        | None => ret tt
        end
    | None => ret tt
    end;;
    reply req true
  else reply req false.

(** *** The session with its goroutines *)

(** The session variables, the goroutines started and not yet finished, the
    pids of the children spawned, the pids of those that have terminated,
    whether the request stream has closed, whether [ctx] is done, and the
    events so far, oldest first. *)
Record world := mkWorld {
  vars : session;
  goroutines : list goroutine;
  children : list Z;
  terminated : list Z;
  requests_closed : bool;
  ctx_done : bool;
  trace : list event
}.

Definition spawned_goroutine (e : event) : option goroutine :=
  match e with
  | EvGo g => Some g
  | _ => None
  end.

Definition spawned_child (e : event) : option Z :=
  match e with
  | EvPtyStart c _ => Process c
  | EvCmdStart c => Process c
  | _ => None
  end.

(** The events that are a child being spawned, and the "exit-status"
    requests. *)
Definition is_spawn (e : event) : bool :=
  match e with
  | EvPtyStart _ _ | EvCmdStart _ => true
  | _ => false
  end.

Definition is_exit_status (e : event) : bool :=
  match e with
  | EvSendRequest name _ _ => String.eqb name "exit-status"
  | _ => false
  end.

(** Run a computation of the session inside the world: its events join the
    trace, its goroutines and children join theirs. *)
Definition run (m : M unit) (gs : list goroutine) (w : world) : world :=
  let '(_, s', evs) := m (vars w) in
  mkWorld s' (gs ++ omap spawned_goroutine evs)
    (children w ++ omap spawned_child evs) (terminated w)
    (requests_closed w) (ctx_done w) (trace w ++ evs).

Definition initial_world : world :=
  mkWorld initial [] [] [] false false [].

(** The moves of a session: the loop takes a request; the request stream
    closes and [handle] returns through its deferred calls; a child
    terminates; [c.Wait()] returns in a reaper, which needs the child to
    have terminated; a reaper calls [finished.Do]; the context is
    cancelled; the watcher wakes up. *)
Inductive step : world -> world -> Prop :=
| step_request o req w :
    requests_closed w = false ->
    step w (run (handle_request o req) (goroutines w) w)
| step_close w :
    requests_closed w = false ->
    step w (mkWorld (vars w) (goroutines w) (children w) (terminated w)
              true (ctx_done w) (trace w ++ [EvCloseWrite; EvClose]))
| step_child_exit pid w :
    pid ∈ children w -> pid ∉ terminated w ->
    step w (mkWorld (vars w) (goroutines w) (children w) (pid :: terminated w)
              (requests_closed w) (ctx_done w) (trace w ++ [EvChildExit pid]))
| step_wait_return c pid err g1 g2 w :
    goroutines w = g1 ++ GoReaperWait c :: g2 ->
    Process c = Some pid -> pid ∈ terminated w ->
    step w (mkWorld (vars w) (g1 ++ GoReaperDo err :: g2) (children w)
              (terminated w) (requests_closed w) (ctx_done w)
              (trace w ++ [EvWaitReturn pid err]))
| step_finished_do err g1 g2 w :
    goroutines w = g1 ++ GoReaperDo err :: g2 ->
    step w (run (finished_Do err) (g1 ++ g2) w)
| step_cancel w :
    step w (mkWorld (vars w) (goroutines w) (children w) (terminated w)
              (requests_closed w) true (trace w))
| step_ctx_watch g1 g2 w :
    goroutines w = g1 ++ GoCtxWatch :: g2 -> ctx_done w = true ->
    step w (run ctx_watch (g1 ++ g2) w).

(** The worlds a session can be in. *)
Definition reachable (w : world) : Prop := rtc step initial_world w.

End Handler.

(** What the request loop can emit: no "exit-status", nothing of the
    reaper or of the child's death, no closing of the channel. *)
Definition loop_event (e : event) : Prop :=
  match e with
  | EvSendRequest _ _ _ | EvChildExit _ | EvWaitReturn _ _
  | EvCloseWrite | EvClose | EvGo (GoReaperDo _) => False
  | _ => True
  end.

(** What must have happened before an event: the child's death before the
    return of [Wait], that return before the "exit-status" request made
    from the error it gave. *)
Definition precedence (e : event) (before : list event) : Prop :=
  match e with
  | EvWaitReturn pid _ => EvChildExit pid ∈ before
  | EvSendRequest name wantReply status =>
      name = "exit-status" /\ wantReply = false
      /\ exists pid err, status = exit_status err /\ EvWaitReturn pid err ∈ before
  | _ => True
  end.

Definition well_ordered (t : list event) : Prop :=
  forall t1 e t2, t = t1 ++ e :: t2 -> precedence e t1.

(** The invariant of a session among its goroutines. *)
Record session_inv (w : world) : Prop := mkInv {
  inv_spawned : length (children w) = length (filter is_spawn (trace w));
  inv_single :
    match cmd (vars w) with
    | None => children w = []
    | Some _ => length (children w) = 1%nat
    end;
  inv_exit_count :
    length (filter is_exit_status (trace w))
    = if finished (vars w) then 1%nat else 0%nat;
  inv_reaper :
    forall err, GoReaperDo err ∈ goroutines w ->
      exists pid, EvWaitReturn pid err ∈ trace w;
  inv_terminated :
    forall pid, pid ∈ terminated w -> EvChildExit pid ∈ trace w;
  inv_dead_child :
    forall pid, EvChildExit pid ∈ trace w -> pid ∈ children w;
  inv_order : well_ordered (trace w)
}.

End server.

(** ** The SSH wire encoding of request payloads (RFC 4251, section 5)

    [ssh.Unmarshal] reads the fields of a struct in order, a [uint32] as
    four bytes, most significant first, a [string] as a [uint32] length and
    that many bytes, and fails when bytes are missing or left over. *)

Module wire.
Import server.

Definition parseUint32 (data : list Byte.byte) : option (Z * list Byte.byte) :=
  match data with
  | a :: b :: c :: d :: rest =>
      Some (Z.lor (Z.lor (Z.lor (Z.shiftl (byte_val a) 24) (Z.shiftl (byte_val b) 16))
                     (Z.shiftl (byte_val c) 8)) (byte_val d), rest)
  | _ => None
  end.

Definition parseString (data : list Byte.byte) : option (string * list Byte.byte) :=
  match parseUint32 data with
  | Some (n, rest) =>
      if Z.of_nat (length rest) <? n then None
      else Some (string_of_list_byte (take (Z.to_nat n) rest), drop (Z.to_nat n) rest)
  | None => None
  end.

(** No byte may be left once the last field is read. *)
Definition finish {A} (a : A) (rest : list Byte.byte) : option A :=
  match rest with
  | [] => Some a
  | _ :: _ => None
  end.

Definition ptyReq (data : list Byte.byte) : option ptyReqMsg :=
  '(term, d1) ← parseString data;
  '(c, d2) ← parseUint32 d1;
  '(r, d3) ← parseUint32 d2;
  '(w, d4) ← parseUint32 d3;
  '(ht, d5) ← parseUint32 d4;
  '(modes, d6) ← parseString d5;
  finish (mkPtyReq term c r w ht modes) d6.

Definition envReq (data : list Byte.byte) : option envMsg :=
  '(k, d1) ← parseString data;
  '(v, d2) ← parseString d1;
  finish (mkEnv k v) d2.

Definition windowChange (data : list Byte.byte) : option windowChangeMsg :=
  '(c, d1) ← parseUint32 data;
  '(r, d2) ← parseUint32 d1;
  '(w, d3) ← parseUint32 d2;
  '(ht, d4) ← parseUint32 d3;
  finish (mkWindowChange c r w ht) d4.

Definition execReq (data : list Byte.byte) : option execMsg :=
  '(command, d1) ← parseString data;
  finish (mkExec command) d1.

Definition signalReq (data : list Byte.byte) : option signalMsg :=
  '(name, d1) ← parseString data;
  finish (mkSignal name) d1.

Definition unmarshal : Unmarshal :=
  Build_Unmarshal ptyReq envReq windowChange execReq signalReq.

(** The encoders of the same format, to write payloads down. *)
Definition putUint32 (n : Z) : list Byte.byte :=
  map (fun k => default Byte.x00 (Byte.of_N (Z.to_N (Z.land (Z.shiftr n k) 0xFF))))
      [24; 16; 8; 0].

Definition putString (s : string) : list Byte.byte :=
  putUint32 (Z.of_nat (String.length s)) ++ list_byte_of_string s.

End wire.

(** ** Package server: the supervisor of server.go *)

Module supervisor.
Import server.

(** [type Server struct], without its logger. *)
Record Server (Signer : Type) := mkServer {
  cfg : config.Config;
  creds : gmap string string;
  hostKey : Signer
}.
Arguments mkServer {Signer} _ _ _.
Arguments cfg {Signer} _.
Arguments creds {Signer} _.
Arguments hostKey {Signer} _.

Section New.
Variable PrivateKey : Type.
Variable Signer : Type.
Variable rsa_GenerateKey : Z -> PrivateKey + error.
Variable x509_MarshalPKCS1PrivateKey : PrivateKey -> list Byte.byte.
Variable pem_EncodeToMemory : string -> list Byte.byte -> list Byte.byte.
Variable ssh_ParsePrivateKey : list Byte.byte -> Signer + error.
(** The components of a file name. *)
Variable components : string -> path.

(** [New]: [None] is a [nil] config. *)
Definition New (c : option config.Config) (fs : filesystem)
    : (Server Signer + error) * filesystem * list fs_call :=
  match c with
  | None => (inr (errorString "config is required"), fs, [])
  | Some c =>
      let '(r, fs', calls) :=
        loadOrCreateHostKey PrivateKey Signer rsa_GenerateKey
          x509_MarshalPKCS1PrivateKey pem_EncodeToMemory ssh_ParsePrivateKey
          (components (config.HostKeyPath c)) fs in
      match r with
      | inr err => (inr err, fs', calls)
      | inl key => (inl (mkServer c (config.Credentials c) key), fs', calls)
      end
  end.
End New.

(** [ssh.UnknownChannelType]. *)
Definition UnknownChannelType : Z := 3.

(** [ssh.NewChannel]: the type the peer asks for, and the error [Accept]
    would give. *)
Record NewChannel := mkNewChannel {
  ChannelType : string;
  accept_error : option error
}.

(** What [handleConnection] does, in order; [i] counts the channel opens. *)
Inductive conn_event :=
| CLog (level msg : string)
| CGoDiscardRequests
| CReject (i : nat) (reason : Z) (message : string)
| CAccept (i : nat)
| CGoHandle (i : nat) (h : sessionHandler)
| CNetClose.

(** The loop [for newChannel := range channels] of [handleConnection]. *)
Fixpoint serve_channels (shell user : string) (i : nat) (channels : list NewChannel)
    : list conn_event :=
  match channels with
  | [] => []
  | newChannel :: rest =>
      (if negb (String.eqb (ChannelType newChannel) "session") then
         [CReject i UnknownChannelType "unknown channel type"]
       else
         match accept_error newChannel with
         | Some err => [CLog "ERROR" "channel accept"]
         | None => [CAccept i; CGoHandle i (mkHandler user shell)]
         end)
      ++ serve_channels shell user (S i) rest
  end.

(** [Server.handleConnection]: [handshake] is what [ssh.NewServerConn]
    gives, the user of the connection or an error; [channels] are the
    channel opens received until the stream closes. *)
Definition handleConnection (shell : string) (handshake : string + error)
    (channels : list NewChannel) : option error * list conn_event :=
  match handshake with
  | inr err => (Some (wrapError "handshake failed" err), [CNetClose])
  | inl user =>
      (None,
       [CLog "INFO" "client connected"; CGoDiscardRequests]
         ++ serve_channels shell user 0 channels
         ++ [CLog "INFO" "client disconnected"; CNetClose])
  end.









Definition handler_of (e : conn_event) : option (nat * sessionHandler) :=
  match e with
  | CGoHandle i h => Some (i, h)
  | _ => None
  end.

End supervisor.

(** ** Invariants of a session *)

Module invariants.
Import server.

Definition is_reply (e : event) : bool :=
  match e with
  | EvReply _ => true
  | _ => false
  end.

Definition is_reaper (g : goroutine) : bool :=
  match g with
  | GoReaperWait _ | GoReaperDo _ => true
  | _ => false
  end.

Section Child.
Context {U : Unmarshal}.
Variable h : sessionHandler.
Variable environ : list string.

(** A command as [start] builds it. *)
Definition started_by (c : Cmd) : Prop :=
  Path c = shell h /\ Dir c = "/"
  /\ (Args c = [shell h]
      \/ exists command, command <> "" /\ Args c = [shell h; "-c"; command])
  /\ env (initial h environ) `prefix_of` Env c.

(** What holds of the child handle, the PTY master and the signals in every
    state of a session. *)
Record child_inv (w : world) : Prop := mkChildInv {
  inv_env_base : env (initial h environ) `prefix_of` env (vars w);
  inv_child :
    forall c, cmd (vars w) = Some c ->
      started_by c /\ Env c `prefix_of` env (vars w)
      /\ exists pid, Process c = Some pid /\ children w = [pid];
  inv_ptmx_cmd : is_Some (ptmx (vars w)) -> is_Some (cmd (vars w));
  inv_reaper_cmd :
    forall g, g ∈ goroutines w -> is_reaper g = true -> is_Some (cmd (vars w));
  inv_finished :
    finished (vars w) = true ->
    is_Some (cmd (vars w)) /\ forall f, ptmx (vars w) = Some f -> closed f = true;
  inv_signal : forall pid sig, EvSignal pid sig ∈ trace w -> pid ∈ children w
}.
End Child.

End invariants.

(** ** The table of section 4.5 of the specification *)

(** The signal names the specification lists, after the prefix is gone. *)
Definition spec_signal_names : list (string * server.Signal) :=
  [("INT", server.SIGINT); ("TERM", server.SIGTERM); ("KILL", server.SIGKILL);
   ("QUIT", server.SIGQUIT); ("HUP", server.SIGHUP)].

(** ** Sample inputs *)

Module samples.
Import server.

(** A configuration file without [listen_address], with port 2200. *)
Definition config_no_address : config.Config :=
  config.mkConfig "" 2200 "" "" [config.mkUser "demo" "pw"] "".


(** A session of user demo, the answers of an OS that spawns the child as
    process 100, and the session after one accepted [shell] request. *)
Definition demo : sessionHandler := mkHandler "demo" "/bin/sh".

Definition spawn_ok : spawn_outcome :=
  mkOutcome (inl (mkWinsize 24 80)) None None 100.

Definition shell_request : Request := mkRequest "shell" true [].

Definition running_session : session :=
  (handle_request (U := wire.unmarshal) demo spawn_ok shell_request
     (initial demo [])).1.2.

(** [env] with [Key = "A"] and [Value = "B"]; [pty-req] for an xterm of 80
    columns and 24 rows; [window-change] to 120 columns and 40 rows. *)
Definition env_request : Request :=
  mkRequest "env" true (wire.putString "A" ++ wire.putString "B").

Definition pty_request : Request :=
  mkRequest "pty-req" true
    (wire.putString "xterm" ++ wire.putUint32 80 ++ wire.putUint32 24
       ++ wire.putUint32 0 ++ wire.putUint32 0 ++ wire.putString "").

Definition window_change_request : Request :=
  mkRequest "window-change" true
    (wire.putUint32 120 ++ wire.putUint32 40 ++ wire.putUint32 0 ++ wire.putUint32 0).

(** The session among its goroutines: after the [shell] request, after the
    child has died, after [Wait] has returned in the reaper, and after the
    reaper has reported. *)
Definition world_running : world :=
  run (handle_request (U := wire.unmarshal) demo spawn_ok shell_request) []
    (initial_world demo []).

Definition world_child_dead : world :=
  mkWorld (vars world_running) (goroutines world_running) (children world_running)
    [100] false false (trace world_running ++ [EvChildExit 100]).

Definition world_wait_returned : world :=
  mkWorld (vars world_running)
    [GoCopyChannelToStdin; GoCtxWatch; GoReaperDo None]
    (children world_running) [100] false false
    (trace world_child_dead ++ [EvWaitReturn 100 None]).

Definition world_reported : world :=
  run (finished_Do None) [GoCopyChannelToStdin; GoCtxWatch] world_wait_returned.

(** A file system that holds a host key under [/etc/tinyssh]. *)
Definition key_path : path := ["etc"; "tinyssh"; "tinyssh_host_key"].

Definition fs_with_key : filesystem :=
  <[key_path := RegFile (bytes_of_string "PEM") perm_key]>
    (<[["etc"; "tinyssh"] := Directory perm_dir]>
       (<[["etc"] := Directory 493]> ∅)).
End samples.

(** ** More sample inputs *)

Module more_samples.
Import server.

(** An OS on which no child can be spawned. *)
Definition spawn_fails : spawn_outcome :=
  mkOutcome (inr (errorString "open /dev/ptmx: permission denied")) None
    (Some (errorString "fork/exec /bin/sh: no such file or directory")) 0.

(** [signal] with the name INT, and the running session after it. *)
Definition signal_request : Request :=
  mkRequest "signal" true (wire.putString "INT").

Definition world_signalled : world :=
  run (handle_request (U := wire.unmarshal) samples.demo samples.spawn_ok signal_request)
    (goroutines samples.world_running) samples.world_running.

(** A session after [pty-req] and [shell], and after its child has died and
    the reaper has reported. *)
Definition world_pty_requested : world :=
  run (handle_request (U := wire.unmarshal) samples.demo samples.spawn_ok
         samples.pty_request) [] (initial_world samples.demo []).

Definition world_pty_running : world :=
  run (handle_request (U := wire.unmarshal) samples.demo samples.spawn_ok
         samples.shell_request) [] world_pty_requested.

Definition pty_child : Cmd :=
  mkCmd "/bin/sh" ["/bin/sh"]
    ["USER=demo"; "LOGNAME=demo"; "HOME=/"; "SHELL=/bin/sh"; "TERM=xterm"] "/"
    (Some 100).

Definition world_pty_dead : world :=
  mkWorld (vars world_pty_running) (goroutines world_pty_running)
    (children world_pty_running) [100] false false
    (trace world_pty_running ++ [EvChildExit 100]).

Definition world_pty_waited : world :=
  mkWorld (vars world_pty_running)
    [GoCopyPtyToChannel; GoCopyChannelToPty; GoCtxWatch; GoReaperDo None]
    (children world_pty_running) [100] false false
    (trace world_pty_dead ++ [EvWaitReturn 100 None]).

Definition world_pty_reported : world :=
  run (finished_Do None) [GoCopyPtyToChannel; GoCopyChannelToPty; GoCtxWatch]
    world_pty_waited.


(** A validated configuration and the server [New] builds from it. *)
Definition demo_config : config.Config :=
  config.mkConfig ":2200" 2200 "/etc/tinyssh/tinyssh_host_key" "/bin/sh"
    [config.mkUser "demo" "pw"] "/etc/tinyssh".

(** The directories of [samples.fs_with_key] without the key file. *)
Definition fs_without_key : filesystem :=
  <[["etc"; "tinyssh"] := Directory perm_dir]> (<[["etc"] := Directory 493]> ∅).



End more_samples.

(** * Properties *)

Import server.

(** ** Bytes and the constant-time comparison *)

Lemma byte_val_range b : 0 <= byte_val b < 256.
Proof.
  unfold byte_val. pose proof (Byte.to_N_bounded b). lia.
Qed.

Lemma byte_val_inj a b : byte_val a = byte_val b -> a = b.
Proof.
  unfold byte_val. intros H. apply N2Z.inj in H.
  pose proof (Byte.of_to_N a) as Ha. rewrite H, Byte.of_to_N in Ha. congruence.
Qed.

Lemma log2_below a n : 0 < n -> 0 <= a < 2 ^ n -> Z.log2 a < n.
Proof.
  intros Hn [Ha0 Ha]. destruct (Z.eq_dec a 0) as [->|Hne]; [simpl; lia|].
  apply Z.log2_lt_pow2; lia.
Qed.

Lemma pow2_exponent_pos a n : 0 <= a < 2 ^ n -> a <> 0 -> 0 < n.
Proof.
  intros Ha Hne. destruct (Z.lt_trichotomy n 0) as [Hn|[->|Hn]]; [|simpl in Ha; lia|lia].
  rewrite Z.pow_neg_r in Ha; lia.
Qed.

Lemma lor_below a b n :
  0 <= a < 2 ^ n -> 0 <= b < 2 ^ n -> 0 <= Z.lor a b < 2 ^ n.
Proof.
  intros Ha Hb.
  assert (H0 : 0 <= Z.lor a b) by (apply Z.lor_nonneg; lia).
  split; [exact H0|].
  destruct (Z.eq_dec (Z.lor a b) 0) as [->|Hne]; [lia|].
  assert (Hn : 0 < n).
  { destruct (Z.eq_dec a 0) as [->|Ha'].
    - rewrite Z.lor_0_l in Hne. exact (pow2_exponent_pos b n Hb Hne).
    - exact (pow2_exponent_pos a n Ha Ha'). }
  apply Z.log2_lt_pow2; [lia|].
  rewrite Z.log2_lor by lia.
  apply Z.max_lub_lt; apply log2_below; assumption.
Qed.

Lemma lxor_below a b n :
  0 <= a < 2 ^ n -> 0 <= b < 2 ^ n -> 0 <= Z.lxor a b < 2 ^ n.
Proof.
  intros Ha Hb.
  assert (H0 : 0 <= Z.lxor a b) by (apply Z.lxor_nonneg; lia).
  split; [exact H0|].
  destruct (Z.eq_dec (Z.lxor a b) 0) as [->|Hne]; [lia|].
  assert (Hn : 0 < n).
  { destruct (Z.eq_dec a 0) as [->|Ha'].
    - rewrite Z.lxor_0_l in Hne. exact (pow2_exponent_pos b n Hb Hne).
    - exact (pow2_exponent_pos a n Ha Ha'). }
  apply Z.log2_lt_pow2; [lia|].
  eapply Z.le_lt_trans; [apply Z.log2_lxor; lia|].
  apply Z.max_lub_lt; apply log2_below; assumption.
Qed.

Lemma xor_fold_range x : forall y v,
  0 <= v < 256 -> 0 <= xor_fold v x y < 256.
Proof.
  induction x as [|a x IH]; intros [|b y] v Hv; simpl; try lia.
  apply IH. change 256 with (2 ^ 8).
  apply lor_below; [exact Hv|]. apply lxor_below; apply byte_val_range.
Qed.

Lemma xor_fold_zero x : forall y v,
  0 <= v < 256 -> length x = length y ->
  xor_fold v x y = 0 <-> v = 0 /\ x = y.
Proof.
  induction x as [|a x IH]; intros [|b y] v Hv Hlen; simpl in *; try discriminate.
  - intuition.
  - assert (Hr : 0 <= Z.lor v (Z.lxor (byte_val a) (byte_val b)) < 256).
    { change 256 with (2 ^ 8). apply lor_below; [exact Hv|].
      apply lxor_below; apply byte_val_range. }
    rewrite (IH y _ Hr) by congruence.
    rewrite Z.lor_eq_0_iff, Z.lxor_eq_0_iff. split.
    + intros [[-> Hab] ->]. apply byte_val_inj in Hab. by subst.
    + intros [-> [= -> ->]]. done.
Qed.

Lemma ConstantTimeByteEq_zero v :
  0 <= v < 256 -> ConstantTimeByteEq v 0 = 1 <-> v = 0.
Proof.
  intros Hv. unfold ConstantTimeByteEq, uint32. rewrite Z.lxor_0_r.
  rewrite (Z.mod_small v) by lia.
  destruct (Z.eq_dec v 0) as [->|Hne].
  - split; [done|]. intros _. reflexivity.
  - split; [|lia]. rewrite (Z.mod_small (v - 1)) by lia.
    rewrite Z.shiftr_div_pow2 by lia. rewrite Z.div_small by lia. lia.
Qed.

Lemma ConstantTimeCompare_spec x y : ConstantTimeCompare x y = 1 <-> x = y.
Proof.
  unfold ConstantTimeCompare.
  destruct (length x =? length y)%nat eqn:Hlen; simpl.
  - apply Nat.eqb_eq in Hlen.
    rewrite ConstantTimeByteEq_zero by (apply xor_fold_range; lia).
    rewrite xor_fold_zero by (lia || done). tauto.
  - apply Nat.eqb_neq in Hlen. split; [lia|]. intros ->. done.
Qed.

Lemma bytes_of_string_inj s t : bytes_of_string s = bytes_of_string t -> s = t.
Proof.
  unfold bytes_of_string. intros H.
  rewrite <- (string_of_list_byte_of_string s), <- (string_of_list_byte_of_string t).
  by rewrite H.
Qed.



(** ** The configuration loader *)

Section ConfigFacts.
Variable filepath_Dir : string -> string.
Variable filepath_Join : string -> string -> string.
Variable filepath_IsAbs : string -> bool.
Variable os_Getenv : string -> string.
Variable strings_TrimSpace : string -> string.
Variable os_ReadFile : string -> option (list Byte.byte).
Variable json_Unmarshal : list Byte.byte -> option config.Config.

Lemma validate_users_not_listen seen us :
  config.validate_users strings_TrimSpace seen us <> Some config.ErrListenAddressRequired.
Proof.
  revert seen. induction us as [|u us IH]; intros seen; simpl; [done|].
  repeat case_match; try done; apply IH.
Qed.

Lemma applyDefaults_listen_nonempty c :
  config.ListenAddress (config.applyDefaults filepath_Join filepath_IsAbs os_Getenv c) <> "".
Proof.
  unfold config.applyDefaults; simpl.
  destruct (String.eqb_spec (config.ListenAddress c) "") as [He|Hne]; [|done].
  destruct (0 <? config.ListenPort c); discriminate.
Qed.

Lemma validate_after_defaults c :
  config.validate strings_TrimSpace
    (config.applyDefaults filepath_Join filepath_IsAbs os_Getenv c)
  <> Some config.ErrListenAddressRequired.
Proof.
  unfold config.validate.
  destruct (String.eqb_spec
    (config.ListenAddress (config.applyDefaults filepath_Join filepath_IsAbs os_Getenv c)) "")
    as [He|Hne].
  - by apply applyDefaults_listen_nonempty in He.
  - case_match; [done|]. apply validate_users_not_listen.
Qed.

Lemma Load_not_listen path :
  config.Load filepath_Dir filepath_Join filepath_IsAbs os_Getenv strings_TrimSpace
    os_ReadFile json_Unmarshal path <> inr config.ErrListenAddressRequired.
Proof.
  unfold config.Load. repeat case_match; try done.
  intros [= ->]. eapply validate_after_defaults; eauto.
Qed.
End ConfigFacts.

(** C10: a configuration read with an empty [listen_address] gets
    ":<listen_port>" when the port is positive and ":2222" otherwise, the
    address is then non-empty, [validate] does not answer "listen address is
    required", and neither does [Load]. *)
Theorem Load_defaults_empty_listen_address
    (filepath_Dir : string -> string) (filepath_Join : string -> string -> string)
    (filepath_IsAbs : string -> bool) (os_Getenv strings_TrimSpace : string -> string)
    (os_ReadFile : string -> option (list Byte.byte))
    (json_Unmarshal : list Byte.byte -> option config.Config)
    (path : string) (raw : list Byte.byte) (parsed : config.Config) :
  os_ReadFile path = Some raw ->
  json_Unmarshal raw = Some parsed ->
  config.ListenAddress parsed = "" ->
  let cfg := config.applyDefaults filepath_Join filepath_IsAbs os_Getenv
               (config.with_configDir (filepath_Dir path) parsed) in
  config.ListenAddress cfg
    = (if 0 <? config.ListenPort parsed
       then ":" +:+ pretty (config.ListenPort parsed) else ":2222")
  /\ config.ListenAddress cfg <> ""
  /\ config.validate strings_TrimSpace cfg <> Some config.ErrListenAddressRequired
  /\ config.Load filepath_Dir filepath_Join filepath_IsAbs os_Getenv strings_TrimSpace
       os_ReadFile json_Unmarshal path
     = match config.validate strings_TrimSpace cfg with
       | Some err => inr err
       | None => inl cfg
       end
  /\ config.Load filepath_Dir filepath_Join filepath_IsAbs os_Getenv strings_TrimSpace
       os_ReadFile json_Unmarshal path <> inr config.ErrListenAddressRequired.
Proof.
  intros Hread Hjson Hempty cfg. repeat split.
  - subst cfg. unfold config.applyDefaults, config.with_configDir; simpl.
    by rewrite Hempty.
  - apply applyDefaults_listen_nonempty.
  - apply validate_after_defaults.
  - unfold config.Load. by rewrite Hread, Hjson.
  - apply Load_not_listen.
Qed.

Lemma Load_defaults_empty_listen_address_witness :
  let Load := config.Load (fun _ => "/etc/tinyssh") (fun d f => d +:+ "/" +:+ f)
                (String.prefix "/") (fun _ => "") (fun s => s)
                (fun _ => Some []) (fun _ => Some samples.config_no_address) in
  Load "/etc/tinyssh/config.json" <> inr config.ErrListenAddressRequired.
Proof.
  exact (proj2 (proj2 (proj2 (proj2
    (Load_defaults_empty_listen_address (fun _ => "/etc/tinyssh")
       (fun d f => d +:+ "/" +:+ f) (String.prefix "/") (fun _ => "") (fun s => s)
       (fun _ => Some []) (fun _ => Some samples.config_no_address)
       "/etc/tinyssh/config.json" [] samples.config_no_address eq_refl eq_refl eq_refl))))).
Defined.

Ltac session_unfold :=
  cbv beta iota zeta delta
    [handle_request start start_pty start_pipe start_cmd finished_Do sendExitStatus
     Close_ptmx Setsize signal_child ctx_watch reply is_nil bind get modify emit ret].

Ltac run_session := repeat progress (session_unfold; simpl).

(** ** The exit status *)

Lemma ExitStatus_of_exited w :
  Exited w = true -> ExitStatus w = Z.land (Z.shiftr w 8) 255 /\ 0 <= ExitStatus w < 256.
Proof.
  intros He. unfold ExitStatus. rewrite He. simpl. split; [done|].
  change 255 with (Z.ones 8). rewrite Z.land_ones by lia.
  apply Z.mod_pos_bound. lia.
Qed.

Lemma ExitStatus_not_exited w : Exited w = false -> ExitStatus w = -1.
Proof. intros He. unfold ExitStatus. by rewrite He. Qed.

(** Exit code 3, death by signal 9, and a [Wait] that failed. *)
Example exit_status_samples :
  exit_status None = 0
  /\ exit_status (Some (ExitError 0x0300)) = 3
  /\ exit_status (Some (ExitError 9)) = 255
  /\ exit_status (Some (errorString "wait: no child processes")) = 255.
Proof. repeat split. Qed.

(** C8: [sendExitStatus] sends one "exit-status" request, without asking
    for a reply, whose status is a [uint32]: 0 when [Wait] gave no error, the
    exit code (below 256) when the child exited, and 255 when it did not exit
    (a signal killed it) or when [Wait] failed with any other error. *)
Theorem sendExitStatus_sends_code_or_255 (err : option error) (s : session) :
  sendExitStatus err s = (tt, s, [EvSendRequest "exit-status" false (exit_status err)])
  /\ 0 <= exit_status err < 2 ^ 32
  /\ match err with
     | None => exit_status err = 0
     | Some (ExitError w) =>
         if Exited w then
           exit_status err = ExitCode w /\ ExitCode w = Z.land (Z.shiftr w 8) 255
           /\ 0 <= ExitCode w < 256
         else exit_status err = 255
     | Some _ => exit_status err = 255
     end.
Proof.
  split; [reflexivity|].
  assert (H255 : 0 <= 255 < 2 ^ 32) by lia.
  destruct err as [[msg|msg e|op errno|w]|]; cbn [exit_status]; try (split; [exact H255|reflexivity]).
  - unfold ExitCode. destruct (Exited w) eqn:He.
    + destruct (ExitStatus_of_exited w He) as [Hv Hr].
      destruct (Z.leb_spec 0 (ExitStatus w)); [|lia].
      unfold uint32. rewrite Z.mod_small by lia. split; [lia|]. repeat split; lia.
    + rewrite (ExitStatus_not_exited w He). simpl. split; [exact H255|reflexivity].
  - change (uint32 0) with 0. split; [lia|reflexivity].
Qed.

(** ** The signal translator *)

Lemma strip_prefix_Some prefix : forall s rest,
  strip_prefix prefix s = Some rest <-> s = prefix +:+ rest.
Proof.
  induction prefix as [|a prefix IH]; intros s rest; simpl.
  - split; [by intros [= ->]|by intros ->].
  - destruct s as [|b s]; [split; discriminate|].
    destruct (Ascii.eqb_spec a b) as [->|Hne].
    + rewrite IH. split; [by intros ->|by intros [= ->]].
    + split; [discriminate|]. intros [= ? ?]. congruence.
Qed.

Lemma sshSignalToOS_table name sig :
  sshSignalToOS name = Some sig <->
  exists n, (n, sig) ∈ spec_signal_names /\ (name = n \/ name = "SIG" +:+ n).
Proof.
  split.
  - unfold sshSignalToOS, TrimPrefix.
    destruct (strip_prefix "SIG" name) as [rest|] eqn:Hp.
    + apply strip_prefix_Some in Hp. subst name.
      repeat match goal with
      | |- context [String.eqb ?a ?b] =>
          destruct (String.eqb_spec a b) as [->|?];
            [intros [= <-]; eexists; split; [|right; reflexivity]; set_solver|]
      end.
      discriminate.
    + repeat match goal with
      | |- context [String.eqb ?a ?b] =>
          destruct (String.eqb_spec a b) as [->|?];
            [intros [= <-]; eexists; split; [|left; reflexivity]; set_solver|]
      end.
      discriminate.
  - intros (n & Hin & Hname). unfold spec_signal_names in Hin.
    repeat (apply elem_of_cons in Hin as [[= -> ->]|Hin];
      [destruct Hname as [->| ->]; reflexivity|]).
    by apply elem_of_nil in Hin.
Qed.

Example sshSignalToOS_samples :
  sshSignalToOS "INT" = Some SIGINT
  /\ sshSignalToOS "SIGTERM" = Some SIGTERM
  /\ sshSignalToOS "SIGSIGINT" = None
  /\ sshSignalToOS "int" = None
  /\ sshSignalToOS "USR1" = None.
Proof. repeat split. Qed.

(** C9: the translator answers a signal exactly for the five names of the
    table, bare or behind one leading "SIG"; a [signal] request leaves the
    session variables alone, signals the child with the translated signal
    exactly when the payload parses, the name is recognised and a child was
    started, signals nothing otherwise, and replies [true] when asked. *)
Theorem signal_request_translates_and_sends
    (U : Unmarshal) (h : sessionHandler) (o : spawn_outcome)
    (want : bool) (payload : list Byte.byte) (s : session) :
  (forall name sig,
     sshSignalToOS name = Some sig <->
     exists n, (n, sig) ∈ spec_signal_names /\ (name = n \/ name = "SIG" +:+ n))
  /\ exists sent,
       handle_request h o (mkRequest "signal" want payload) s
         = (tt, s, sent ++ (if want then [EvReply true] else []))
       /\ (length sent <= 1)%nat
       /\ forall e, e ∈ sent <->
            exists msg sig c pid,
              e = EvSignal pid sig
              /\ unmarshal_signal payload = Some msg
              /\ sshSignalToOS (sig_Signal msg) = Some sig
              /\ cmd s = Some c /\ Process c = Some pid.
Proof.
  split; [apply sshSignalToOS_table|].
  run_session.
  destruct (unmarshal_signal payload) as [msg|] eqn:Hm; simpl.
  - destruct (sshSignalToOS (sig_Signal msg)) as [sig|] eqn:Hs; simpl.
    + destruct (cmd s) as [c|] eqn:Hc; [destruct (Process c) as [pid|] eqn:Hpid|]; simpl.
      * exists [EvSignal pid sig]. destruct want; simpl; (split; [done|split; [lia|]]);
          intros e; rewrite list_elem_of_singleton; split.
        all: try (intros ->; exists msg, sig, c, pid; done).
        all: intros (? & ? & ? & ? & -> & [= <-] & ? & [= <-] & ?); congruence.
      * exists []. destruct want; simpl; (split; [done|split; [lia|]]);
          intros e; split; [by intros ?%elem_of_nil| |by intros ?%elem_of_nil|].
        all: intros (? & ? & ? & ? & -> & _ & _ & [= <-] & ?); congruence.
      * exists []. destruct want; simpl; (split; [done|split; [lia|]]);
          intros e; split; [by intros ?%elem_of_nil| |by intros ?%elem_of_nil|].
        all: intros (? & ? & ? & ? & -> & _ & _ & ? & ?); congruence.
    + exists []. destruct want; simpl; (split; [done|split; [lia|]]);
        intros e; split; [by intros ?%elem_of_nil| |by intros ?%elem_of_nil|].
      all: intros (? & ? & ? & ? & -> & [= <-] & ? & _); congruence.
  - exists []. destruct want; simpl; (split; [done|split; [lia|]]);
      intros e; split; [by intros ?%elem_of_nil| |by intros ?%elem_of_nil|].
    all: intros (? & ? & ? & ? & -> & ? & _); congruence.
Qed.

(** ** The host-key store *)

Lemma mkdir_from_preserves todo : forall (done : path) (perm : Z) (fs fs' : filesystem),
  mkdir_from done todo perm fs = inl fs' ->
  forall p n, fs !! p = Some n -> fs' !! p = Some n.
Proof.
  induction todo as [|c rest IH]; intros done perm fs fs' Hmk p n Hp; simpl in Hmk.
  - destruct (fs !! done) as [[content m|m]|] eqn:Hd; simplify_eq; [done|].
    rewrite lookup_insert_ne; [done|congruence].
  - destruct (fs !! done) as [[content m|m]|] eqn:Hd; simplify_eq.
    + eapply IH; eauto.
    + eapply IH; [eauto|]. rewrite lookup_insert_ne; [done|congruence].
Qed.

Lemma MkdirAll_preserves (d : path) (perm : Z) (fs fs' : filesystem) :
  MkdirAll d perm fs = inl fs' ->
  forall p n, fs !! p = Some n -> fs' !! p = Some n.
Proof.
  destruct d as [|c rest]; simpl; [by intros [= ->]|].
  apply mkdir_from_preserves.
Qed.

Lemma mkdir_from_existing todo : forall (done : path) (perm : Z) (fs : filesystem),
  (forall j, (j <= length todo)%nat ->
     exists m, fs !! (done ++ take j todo) = Some (Directory m)) ->
  mkdir_from done todo perm fs = inl fs.
Proof.
  induction todo as [|c rest IH]; intros done perm fs Hdirs; simpl.
  - destruct (Hdirs 0%nat) as [m Hm]; [simpl; lia|].
    simpl in Hm. rewrite app_nil_r in Hm. by rewrite Hm.
  - destruct (Hdirs 0%nat) as [m Hm]; [simpl; lia|].
    simpl in Hm. rewrite app_nil_r in Hm. rewrite Hm.
    apply IH. intros j Hj. destruct (Hdirs (S j)) as [m' Hm']; [simpl; lia|].
    exists m'. simpl in Hm'. by rewrite <- app_assoc.
Qed.

Lemma MkdirAll_existing (d : path) (perm : Z) (fs : filesystem) :
  dirs_exist fs d -> MkdirAll d perm fs = inl fs.
Proof.
  intros Hdirs. destruct d as [|c rest]; simpl; [done|].
  apply mkdir_from_existing. intros j Hj.
  destruct (Hdirs (S j)) as [m Hm]; [simpl; lia|]. by exists m.
Qed.

Section HostKeyFacts.
Context {PrivateKey Signer : Type}.
Variable rsa_GenerateKey : Z -> PrivateKey + error.
Variable x509_MarshalPKCS1PrivateKey : PrivateKey -> list Byte.byte.
Variable pem_EncodeToMemory : string -> list Byte.byte -> list Byte.byte.
Variable ssh_ParsePrivateKey : list Byte.byte -> Signer + error.

Local Abbreviation load := (loadOrCreateHostKey PrivateKey Signer rsa_GenerateKey
  x509_MarshalPKCS1PrivateKey pem_EncodeToMemory ssh_ParsePrivateKey).



End HostKeyFacts.




(** ** Requests before and after the start *)

(** C4, as the code has it: an [env] request whose payload does not parse
    or whose [Key] is empty is replied [false] and changes nothing; with a
    non-empty [Key] it appends "Key=Value" to [env] and is replied [true],
    in every state of the session, started or not; a reply is sent only
    when the request asks for one. *)
Theorem env_request_appends_unless_key_empty
    (U : Unmarshal) (h : sessionHandler) (o : spawn_outcome)
    (want : bool) (payload : list Byte.byte) (s : session) :
  handle_request h o (mkRequest "env" want payload) s
  = match unmarshal_env payload with
    | None => (tt, s, if want then [EvReply false] else [])
    | Some msg =>
        if String.eqb (env_Key msg) "" then
          (tt, s, if want then [EvReply false] else [])
        else
          (tt, set_env (env s ++ [env_Key msg +:+ "=" +:+ env_Value msg]) s,
           if want then [EvReply true] else [])
    end.
Proof.
  run_session. destruct (unmarshal_env payload) as [msg|]; simpl.
  - destruct (String.eqb (env_Key msg) ""); simpl; by destruct want.
  - by destruct want.
Qed.

(** C4 as stated fails: after an accepted [shell] request, an [env] request
    for A=B is replied [true] and extends [env]. *)
Lemma env_request_after_start_is_accepted :
  let s := samples.running_session in
  is_Some (cmd s)
  /\ handle_request (U := wire.unmarshal) samples.demo samples.spawn_ok
       samples.env_request s
     = (tt, set_env (env s ++ ["A=B"]) s, [EvReply true])
  /\ set_env (env s ++ ["A=B"]) s <> s.
Proof.
  simpl. split; [by eexists|]. split; [reflexivity|]. vm_compute. discriminate.
Qed.

(** C5, as the code has it: in every state of the session, started or not,
    a [pty-req] is replied [true] exactly when its payload parses (when a
    reply is asked for); it then sets [wantPTY], records the columns and
    rows and appends "TERM=<value>" for a non-empty [Term]; a payload that
    does not parse changes nothing. *)
Theorem pty_request_records_whenever_payload_parses
    (U : Unmarshal) (h : sessionHandler) (o : spawn_outcome)
    (want : bool) (payload : list Byte.byte) (s : session) :
  handle_request h o (mkRequest "pty-req" want payload) s
  = match unmarshal_ptyReq payload with
    | None => (tt, s, if want then [EvReply false] else [])
    | Some msg =>
        (tt,
         mkSession
           (if String.eqb (pty_Term msg) "" then env s
            else env s ++ ["TERM=" +:+ pty_Term msg])
           (cmd s) (ptmx s) true (pty_Cols msg) (pty_Rows msg) (finished s),
         if want then [EvReply true] else [])
    end.
Proof.
  run_session. destruct (unmarshal_ptyReq payload) as [msg|]; simpl.
  - destruct (String.eqb (pty_Term msg) ""); simpl; by destruct want.
  - by destruct want.
Qed.

(** C5 as stated fails: after an accepted [shell] request, a [pty-req] is
    replied [true] and changes [wantPTY], [cols], [rows] and [env]. *)
Lemma pty_request_after_start_is_accepted :
  let s := samples.running_session in
  is_Some (cmd s)
  /\ handle_request (U := wire.unmarshal) samples.demo samples.spawn_ok
       samples.pty_request s
     = (tt, mkSession (env s ++ ["TERM=xterm"]) (cmd s) (ptmx s) true 80 24 (finished s),
        [EvReply true])
  /\ wantPTY s = false /\ cols s = 0 /\ rows s = 0.
Proof.
  simpl. split; [by eexists|]. split; [reflexivity|]. done.
Qed.

(** C6, as the code has it: a [window-change] request is always replied
    [true] when a reply is asked for; it records the columns and rows of a
    well-formed payload only when a PTY master was opened, and then calls
    [pty.Setsize] with both truncated to 16 bits, which resizes the PTY
    unless it was closed; without a PTY master the request changes
    nothing. *)
Theorem window_change_resizes_open_pty_only
    (U : Unmarshal) (h : sessionHandler) (o : spawn_outcome)
    (want : bool) (payload : list Byte.byte) (s : session) :
  handle_request h o (mkRequest "window-change" want payload) s
  = match ptmx s, unmarshal_windowChange payload with
    | Some f, Some msg =>
        let ws := mkWinsize (uint16 (wc_Rows msg)) (uint16 (wc_Cols msg)) in
        (tt,
         mkSession (env s) (cmd s)
           (Some (if closed f then f else mkFile false ws))
           (wantPTY s) (wc_Cols msg) (wc_Rows msg) (finished s),
         EvSetsize ws :: (if want then [EvReply true] else []))
    | _, _ => (tt, s, if want then [EvReply true] else [])
    end.
Proof.
  destruct s as [env0 cmd0 [[[] sz]|] want0 cols0 rows0 fin0]; run_session;
    destruct (unmarshal_windowChange payload) as [msg|]; simpl; by destruct want.
Qed.

(** C6 as stated fails: before any PTY is open, a well-formed
    [window-change] to 120 by 40 leaves [cols] and [rows] at 0. *)
Lemma window_change_without_pty_changes_nothing :
  let s := initial samples.demo [] in
  wire.windowChange (Payload samples.window_change_request)
    = Some (mkWindowChange 120 40 0 0)
  /\ handle_request (U := wire.unmarshal) samples.demo samples.spawn_ok
       samples.window_change_request s
     = (tt, s, [EvReply true])
  /\ cols s = 0 /\ rows s = 0.
Proof. simpl. split; [reflexivity|]. split; [reflexivity|]. done. Qed.

(** ** The request loop among the goroutines *)

(** Case analysis on the innermost condition of the goal. *)
Ltac break_innermost :=
  match goal with
  | |- context [match ?x with _ => _ end] =>
      lazymatch x with
      | context [match _ with _ => _ end] => fail
      | _ => destruct x eqn:?
      end
  end.

Ltac run_cases := run_session; repeat (break_innermost; simpl in *).

Ltac solve_outcome :=
  first
    [ done
    | left; repeat split; first [done | by eexists]
    | right; repeat split; first [done | by eexists] ].

Section RequestLoop.
Context {U : Unmarshal}.
Variable h : sessionHandler.

Lemma start_effect o command s :
  let r := start h o command s in
  finished r.1.2 = finished s /\ Forall loop_event r.2
  /\ match cmd s with
     | Some c =>
         r = (Some (errorString "session already running"), s,
              [EvLog "WARN" "session start rejected"
                 (errorString "session already running")])
     | None =>
         (is_Some r.1.1 /\ cmd r.1.2 = None
          /\ omap spawned_child r.2 = [] /\ filter is_spawn r.2 = [])
         \/ (r.1.1 = None /\ is_Some (cmd r.1.2)
             /\ omap spawned_child r.2 = [new_pid o]
             /\ length (filter is_spawn r.2) = 1%nat)
     end.
Proof.
  destruct s as [env0 cmd0 ptmx0 want0 cols0 rows0 fin0].
  destruct o as [opty opipe ostart pid]. simpl.
  run_cases; (split; [done|split; [repeat constructor|]]); solve_outcome.
Qed.

Lemma handle_request_effect o req s :
  let r := handle_request h o req s in
  finished r.1.2 = finished s /\ Forall loop_event r.2
  /\ match cmd s with
     | Some c =>
         cmd r.1.2 = Some c /\ omap spawned_child r.2 = []
         /\ filter is_spawn r.2 = []
     | None =>
         (cmd r.1.2 = None /\ omap spawned_child r.2 = []
          /\ filter is_spawn r.2 = [])
         \/ (is_Some (cmd r.1.2) /\ omap spawned_child r.2 = [new_pid o]
             /\ length (filter is_spawn r.2) = 1%nat)
     end.
Proof.
  destruct s as [env0 cmd0 ptmx0 want0 cols0 rows0 fin0].
  destruct o as [opty opipe ostart pid].
  destruct req as [type want payload]. simpl.
  run_cases; (split; [done|split; [repeat constructor|]]); solve_outcome.
Qed.
End RequestLoop.

(** ** Events in order *)

Lemma well_ordered_app t evs :
  well_ordered t ->
  (forall u1 e u2, evs = u1 ++ e :: u2 -> precedence e (t ++ u1)) ->
  well_ordered (t ++ evs).
Proof.
  intros Ht Hevs t1 e t2 Heq.
  apply app_eq_inv in Heq as [(k & Hk1 & Hk2)|(k & Hk1 & Hk2)].
  - destruct k as [|e' k]; simpl in Hk2.
    + rewrite app_nil_r in Hk1. subst t1. 
      specialize (Hevs [] e t2). rewrite app_nil_r in Hevs. apply Hevs. by rewrite Hk2.
    + injection Hk2 as <- ->. by apply (Ht t1 e k).
  - subst t1. by apply (Hevs k e t2).
Qed.

Lemma loop_event_precedence evs before :
  Forall loop_event evs ->
  forall u1 e u2, evs = u1 ++ e :: u2 -> precedence e before.
Proof.
  intros Hall u1 e u2 ->. apply Forall_app in Hall as [_ Hall].
  apply Forall_cons in Hall as [He _].
  destruct e as [ | | | |[]| | | | | | | | ]; simpl in *; done.
Qed.

Lemma well_ordered_loop t evs :
  well_ordered t -> Forall loop_event evs -> well_ordered (t ++ evs).
Proof.
  intros Ht Hall. apply well_ordered_app; [done|].
  intros u1 e u2 Heq. by eapply loop_event_precedence.
Qed.

Lemma well_ordered_snoc t e :
  well_ordered t -> precedence e t -> well_ordered (t ++ [e]).
Proof.
  intros Ht He. apply well_ordered_app; [done|].
  intros [|e' u1] e'' u2 Heq; simpl in Heq.
  - injection Heq as <- _. by rewrite app_nil_r.
  - injection Heq as _ Heq. by destruct u1.
Qed.

Lemma precedence_mono e t u : precedence e t -> precedence e (t ++ u).
Proof.
  destruct e; simpl; try done.
  - intros (-> & -> & pid & err & -> & Hin). repeat split.
    exists pid, err. split; [done|]. apply elem_of_app. by left.
  - intros Hin. apply elem_of_app. by left.
Qed.

Lemma filter_loop_exit_status evs :
  Forall loop_event evs -> filter is_exit_status evs = [].
Proof.
  induction 1 as [|e evs He _ IH]; [done|].
  rewrite filter_cons. destruct e; simpl in *; try done.
Qed.

Lemma omap_loop_reaper evs err :
  Forall loop_event evs -> GoReaperDo err ∉ omap spawned_goroutine evs.
Proof.
  induction 1 as [|e evs He _ IH]; simpl; [by intros ?%elem_of_nil|].
  destruct e as [ | | | |g| | | | | | | | ]; simpl in *; try done.
  intros [<-|Hin]%elem_of_cons; [done|]. by apply IH.
Qed.

Lemma loop_event_not_exit evs pid :
  Forall loop_event evs -> EvChildExit pid ∉ evs.
Proof.
  intros Hall Hin. rewrite Forall_forall in Hall. by apply Hall in Hin.
Qed.

(** ** The reaper and the watcher *)

Lemma finished_Do_effect err s :
  exists s' evs,
    finished_Do err s = (tt, s', evs) /\ cmd s' = cmd s
    /\ omap spawned_goroutine evs = [] /\ omap spawned_child evs = []
    /\ filter is_spawn evs = []
    /\ if finished s then s' = s /\ evs = []
       else finished s' = true
            /\ exists rest, evs = EvSendRequest "exit-status" false (exit_status err) :: rest
                 /\ Forall loop_event rest.
Proof.
  destruct s as [env0 cmd0 ptmx0 want0 cols0 rows0 fin0].
  run_cases; do 2 eexists; (split; [reflexivity|]); repeat split;
    eexists; split; [reflexivity|repeat constructor|reflexivity|repeat constructor].
Qed.

Lemma ctx_watch_effect s :
  exists evs, ctx_watch s = (tt, s, evs) /\ Forall loop_event evs
    /\ omap spawned_goroutine evs = [] /\ omap spawned_child evs = []
    /\ filter is_spawn evs = [].
Proof.
  destruct s as [env0 cmd0 ptmx0 want0 cols0 rows0 fin0].
  run_cases; eexists; (split; [reflexivity|]); repeat split; repeat constructor.
Qed.

Lemma run_eq (m : M unit) gs w s' evs :
  m (vars w) = (tt, s', evs) ->
  run m gs w
  = mkWorld s' (gs ++ omap spawned_goroutine evs) (children w ++ omap spawned_child evs)
      (terminated w) (requests_closed w) (ctx_done w) (trace w ++ evs).
Proof. intros Hm. unfold run. by rewrite Hm. Qed.

(** ** The invariant of a session *)

Section Invariant.
Context {U : Unmarshal}.
Variable h : sessionHandler.
Variable environ : list string.

Lemma initial_inv : session_inv (initial_world h environ).
Proof.
  split; simpl; try done.
  - intros err Hin. by apply elem_of_nil in Hin.
  - intros pid Hin. by apply elem_of_nil in Hin.
  - intros pid Hin. by apply elem_of_nil in Hin.
  - intros [|e1 t1] e t2 Heq; discriminate.
Qed.

Lemma step_inv w w' : step h w w' -> session_inv w -> session_inv w'.
Proof.
  intros Hstep [Hsp Hsi Hex Hre Hte Hdc Hor].
  destruct Hstep as [o req w Hopen|w Hopen|pid w Hchild Hfresh
                    |c pid err g1 g2 w Hg Hpid Hdead|err g1 g2 w Hg|w|g1 g2 w Hg Hdone].
  - (* a request *)
    pose proof (handle_request_effect h o req (vars w)) as (Hfin & Hloop & Hcmd).
    destruct (handle_request h o req (vars w)) as [[[] s'] evs] eqn:Hrun.
    simpl in Hfin, Hloop, Hcmd. rewrite (run_eq _ _ _ _ _ Hrun).
    split; simpl.
    + rewrite length_app, filter_app, length_app, Hsp. f_equal.
      destruct (cmd (vars w)).
      * destruct Hcmd as (_ & -> & ->). done.
      * destruct Hcmd as [(_ & -> & ->)|(_ & -> & ->)]; done.
    + destruct (cmd (vars w)).
      * destruct Hcmd as (-> & -> & _). by rewrite app_nil_r.
      * rewrite Hsi. destruct Hcmd as [(-> & -> & _)|([c ->] & -> & _)]; done.
    + rewrite filter_app, length_app, Hex, Hfin.
      by rewrite (filter_loop_exit_status _ Hloop), Nat.add_0_r.
    + intros err [Hin|Hin]%elem_of_app.
      * destruct (Hre err Hin) as [pid Hpid]. exists pid. apply elem_of_app. by left.
      * by apply omap_loop_reaper in Hin.
    + intros pid Hin. apply elem_of_app. left. by apply Hte.
    + intros pid [Hin|Hin]%elem_of_app.
      * apply elem_of_app. left. by apply Hdc.
      * by apply loop_event_not_exit in Hin.
    + by apply well_ordered_loop.
  - (* the request stream closes *)
    split; simpl; try done.
    + by rewrite filter_app, length_app, Nat.add_0_r.
    + by rewrite filter_app, length_app, Nat.add_0_r.
    + intros err Hin. destruct (Hre err Hin) as [pid Hpid]. exists pid.
      apply elem_of_app. by left.
    + intros pid Hin. apply elem_of_app. left. by apply Hte.
    + intros pid [Hin|Hin]%elem_of_app; [by apply Hdc|].
      repeat (apply elem_of_cons in Hin as [[=]|Hin]). by apply elem_of_nil in Hin.
    + change [EvCloseWrite; EvClose] with ([EvCloseWrite] ++ [EvClose]).
      rewrite app_assoc. by repeat apply well_ordered_snoc.
  - (* the child dies *)
    split; simpl; try done.
    + by rewrite filter_app, length_app, Nat.add_0_r.
    + by rewrite filter_app, length_app, Nat.add_0_r.
    + intros err Hin. destruct (Hre err Hin) as [pid' Hpid]. exists pid'.
      apply elem_of_app. by left.
    + intros pid' [->|Hin]%elem_of_cons; apply elem_of_app.
      * right. by apply list_elem_of_singleton.
      * left. by apply Hte.
    + intros pid' [Hin|Hin]%elem_of_app; [by apply Hdc|].
      apply list_elem_of_singleton in Hin as [= ->]. done.
    + by apply well_ordered_snoc.
  - (* Wait returns *)
    split; simpl; try done.
    + by rewrite filter_app, length_app, Nat.add_0_r.
    + by rewrite filter_app, length_app, Nat.add_0_r.
    + intros err' Hin. apply elem_of_app in Hin as [Hin|Hin].
      * destruct (Hre err') as [pid' Hpid'].
        { rewrite Hg. apply elem_of_app. by left. }
        exists pid'. apply elem_of_app. by left.
      * apply elem_of_cons in Hin as [[= ->]|Hin].
        -- exists pid. apply elem_of_app. right. by apply list_elem_of_singleton.
        -- destruct (Hre err') as [pid' Hpid'].
           { rewrite Hg. apply elem_of_app. right. by apply elem_of_cons; right. }
           exists pid'. apply elem_of_app. by left.
    + intros pid' Hin. apply elem_of_app. left. by apply Hte.
    + intros pid' [Hin|Hin]%elem_of_app; [by apply Hdc|].
      by apply list_elem_of_singleton in Hin.
    + apply well_ordered_snoc; [done|]. simpl. by apply Hte.
  - (* finished.Do *)
    destruct (finished_Do_effect err (vars w))
      as (s' & evs & Hrun & Hcmd & Hgo & Hch & Hspn & Hfin).
    rewrite (run_eq _ _ _ _ _ Hrun). 
    assert (Hre' : forall err', GoReaperDo err' ∈ g1 ++ g2 ->
                     exists pid, EvWaitReturn pid err' ∈ trace w).
    { intros err' Hin. apply Hre. rewrite Hg.
      apply elem_of_app in Hin as [Hin|Hin]; apply elem_of_app; [by left|].
      right. by apply elem_of_cons; right. }
    destruct (Hre err) as [pid Hwait].
    { rewrite Hg. apply elem_of_app. right. by apply elem_of_cons; left. }
    split; simpl.
    + by rewrite Hch, app_nil_r, filter_app, length_app, Hspn, Nat.add_0_r.
    + by rewrite Hcmd, Hch, app_nil_r.
    + rewrite filter_app, length_app, Hex. destruct (finished (vars w)) eqn:Hf.
      * destruct Hfin as [-> ->]. by rewrite Hf.
      * destruct Hfin as (-> & rest & -> & Hrest).
        rewrite filter_cons. simpl.
        by rewrite (filter_loop_exit_status _ Hrest).
    + rewrite Hgo, app_nil_r. intros err' Hin.
      destruct (Hre' err' Hin) as [pid' Hpid']. exists pid'.
      apply elem_of_app. by left.
    + intros pid' Hin. apply elem_of_app. left. by apply Hte.
    + rewrite Hch, app_nil_r. intros pid' [Hin|Hin]%elem_of_app; [by apply Hdc|].
      destruct (finished (vars w)).
      * destruct Hfin as [_ ->]. by apply elem_of_nil in Hin.
      * destruct Hfin as (_ & rest & -> & Hrest).
        apply elem_of_cons in Hin as [[=]|Hin]. by apply loop_event_not_exit in Hin.
    + destruct (finished (vars w)).
      * destruct Hfin as [_ ->]. by rewrite app_nil_r.
      * destruct Hfin as (_ & rest & -> & Hrest).
        change (EvSendRequest "exit-status" false (exit_status err) :: rest)
          with ([EvSendRequest "exit-status" false (exit_status err)] ++ rest).
        rewrite app_assoc. apply well_ordered_loop; [|done].
        apply well_ordered_snoc; [done|]. simpl. repeat split. by exists pid, err.
  - (* the context is cancelled *)
    by split.
  - (* the watcher wakes up *)
    destruct (ctx_watch_effect (vars w)) as (evs & Hrun & Hloop & Hgo & Hch & Hspn).
    rewrite (run_eq _ _ _ _ _ Hrun).
    split; simpl.
    + by rewrite Hch, app_nil_r, filter_app, length_app, Hspn, Nat.add_0_r.
    + by rewrite Hch, app_nil_r.
    + by rewrite filter_app, length_app, (filter_loop_exit_status _ Hloop), Nat.add_0_r.
    + rewrite Hgo, app_nil_r. intros err' Hin. destruct (Hre err') as [pid' Hpid'].
      { rewrite Hg. apply elem_of_app in Hin as [Hin|Hin]; apply elem_of_app; [by left|].
        right. by apply elem_of_cons; right. }
      exists pid'. apply elem_of_app. by left.
    + intros pid' Hin. apply elem_of_app. left. by apply Hte.
    + rewrite Hch, app_nil_r. intros pid' [Hin|Hin]%elem_of_app; [by apply Hdc|].
      by apply loop_event_not_exit in Hin.
    + by apply well_ordered_loop.
Qed.
End Invariant.

Section Reachable.
Context {U : Unmarshal}.
Variable h : sessionHandler.
Variable environ : list string.

Lemma reachable_inv w : reachable h environ w -> session_inv w.
Proof.
  intros Hreach.
  apply (rtc_ind_r (R := step h) (fun w => session_inv w) (initial_world h environ));
    [apply initial_inv| |exact Hreach].
  intros w1 w2 _ Hstep IH. by eapply step_inv.
Qed.

Lemma step_keeps_cmd w w' c :
  step h w w' -> cmd (vars w) = Some c ->
  cmd (vars w') = Some c /\ children w' = children w.
Proof.
  intros Hstep Hc.
  destruct Hstep as [o req w Hopen|w Hopen|pid w Hchild Hfresh
                    |c' pid err g1 g2 w Hg Hpid Hdead|err g1 g2 w Hg|w|g1 g2 w Hg Hdone];
    simpl; try done.
  - pose proof (handle_request_effect h o req (vars w)) as (_ & _ & Hcmd).
    destruct (handle_request h o req (vars w)) as [[[] s'] evs] eqn:Hrun.
    rewrite (run_eq _ _ _ _ _ Hrun). rewrite Hc in Hcmd. simpl in *.
    destruct Hcmd as (-> & -> & _). by rewrite app_nil_r.
  - destruct (finished_Do_effect err (vars w)) as (s' & evs & Hrun & Hcmd & _ & Hch & _).
    rewrite (run_eq _ _ _ _ _ Hrun). simpl. by rewrite Hcmd, Hch, app_nil_r.
  - destruct (ctx_watch_effect (vars w)) as (evs & Hrun & _ & _ & Hch & _).
    rewrite (run_eq _ _ _ _ _ Hrun). simpl. by rewrite Hch, app_nil_r.
Qed.

Lemma steps_keep_cmd w w' c :
  rtc (step h) w w' -> cmd (vars w) = Some c ->
  cmd (vars w') = Some c /\ children w' = children w.
Proof.
  induction 1 as [|w1 w2 w3 Hstep Hrtc IH]; [done|].
  intros Hc. destruct (step_keeps_cmd _ _ _ Hstep Hc) as [Hc2 Hch2].
  destruct (IH Hc2) as [Hc3 Hch3]. split; [done|congruence].
Qed.
End Reachable.

(** C1: once a child handle is set, [start] fails with "session already
    running" and changes nothing, and a [shell] or [exec] request is replied
    [false] (when a reply is asked for) and changes nothing; a [start] that
    finds no child either fails and spawns none, or succeeds, spawns one and
    sets the handle; and in every state a session reaches among its
    goroutines at most one child was ever spawned, and a handle once set
    stays the same for ever. *)
Theorem single_commit_rule (U : Unmarshal) (h : sessionHandler) (environ : list string) :
  let already := errorString "session already running" in
  let rejected := EvLog "WARN" "session start rejected" already in
  (forall o command s c,
     cmd s = Some c -> start h o command s = (Some already, s, [rejected]))
  /\ (forall o want payload s c,
        cmd s = Some c ->
        handle_request h o (mkRequest "shell" want payload) s
        = (tt, s,
           rejected :: (if want then [EvReply false] else [])
             ++ [EvLog "ERROR" "shell request failed" already]))
  /\ (forall o want payload s c,
        cmd s = Some c ->
        handle_request h o (mkRequest "exec" want payload) s
        = (tt, s,
           match unmarshal_exec payload with
           | None => if want then [EvReply false] else []
           | Some _ =>
               rejected :: (if want then [EvReply false] else [])
                 ++ [EvLog "ERROR" "exec request failed" already]
           end))
  /\ (forall o command s,
        cmd s = None ->
        let r := start h o command s in
        (is_Some r.1.1 /\ cmd r.1.2 = None /\ filter is_spawn r.2 = [])
        \/ (r.1.1 = None /\ is_Some (cmd r.1.2)
            /\ length (filter is_spawn r.2) = 1%nat))
  /\ (forall w,
        reachable h environ w ->
        (length (filter is_spawn (trace w)) <= 1)%nat
        /\ length (children w) = length (filter is_spawn (trace w))
        /\ forall c w',
             cmd (vars w) = Some c -> rtc (step h) w w' ->
             cmd (vars w') = Some c /\ children w' = children w
             /\ length (filter is_spawn (trace w')) = 1%nat).
Proof.
  intros already rejected. repeat apply conj.
  - intros o command s c Hc.
    pose proof (start_effect h o command s) as (_ & _ & Hs). by rewrite Hc in Hs.
  - intros o want payload [env0 cmd0 ptmx0 want0 cols0 rows0 fin0] c Hc.
    simpl in Hc. subst cmd0. run_session. destruct want; reflexivity.
  - intros o want payload [env0 cmd0 ptmx0 want0 cols0 rows0 fin0] c Hc.
    simpl in Hc. subst cmd0. run_session.
    destruct (unmarshal_exec payload); simpl; destruct want; reflexivity.
  - intros o command s Hc r.
    pose proof (start_effect h o command s) as (_ & _ & Hs). rewrite Hc in Hs.
    destruct Hs as [(? & ? & _ & ?)|(? & ? & _ & ?)]; [by left|by right].
  - intros w Hreach. pose proof (reachable_inv h environ w Hreach) as Hinv.
    pose proof (inv_spawned w Hinv) as Hsp. pose proof (inv_single w Hinv) as Hsi.
    repeat apply conj.
    + rewrite <- Hsp. destruct (cmd (vars w)); [lia|]. rewrite Hsi. simpl. lia.
    + done.
    + intros c w' Hc Hrtc.
      destruct (steps_keep_cmd h w w' c Hrtc Hc) as [Hc' Hch'].
      assert (Hreach' : reachable h environ w') by (unfold reachable in *; by etrans).
      pose proof (reachable_inv h environ w' Hreach') as Hinv'.
      pose proof (inv_spawned w' Hinv') as Hsp'. pose proof (inv_single w' Hinv') as Hsi'.
      rewrite Hc' in Hsi'. repeat split; [done|done|lia].
Qed.

(** C2: in every state a session reaches among its goroutines, the trace
    holds at most one "exit-status" request, every request the session
    sends is such a one, and before it in the trace [Wait] returned the
    error the status was computed from, for a child of this session that
    had died before. *)
Theorem exit_status_once_and_after_wait
    (U : Unmarshal) (h : sessionHandler) (environ : list string) (w : world) :
  reachable h environ w ->
  (length (filter is_exit_status (trace w)) <= 1)%nat
  /\ forall t1 name wantReply status t2,
       trace w = t1 ++ EvSendRequest name wantReply status :: t2 ->
       name = "exit-status"
       /\ exists pid err,
            status = exit_status err
            /\ EvWaitReturn pid err ∈ t1 /\ EvChildExit pid ∈ t1 /\ pid ∈ children w.
Proof.
  intros Hreach. pose proof (reachable_inv h environ w Hreach) as Hinv.
  split.
  - rewrite (inv_exit_count w Hinv). destruct (finished (vars w)); lia.
  - intros t1 name wantReply status t2 Heq.
    destruct (inv_order w Hinv _ _ _ Heq) as (-> & _ & pid & err & -> & Hwait).
    split; [done|]. exists pid, err. split; [done|]. split; [done|].
    apply list_elem_of_split in Hwait as (a & b & ->).
    rewrite <- app_assoc in Heq. simpl in Heq.
    pose proof (inv_order w Hinv _ _ _ Heq) as Hexit. simpl in Hexit.
    assert (Hin : EvChildExit pid ∈ a ++ EvWaitReturn pid err :: b)
      by (apply elem_of_app; by left).
    split; [done|]. apply (inv_dead_child w Hinv). rewrite Heq.
    apply elem_of_app. by left.
Qed.

(** Scenario 1 of the specification: [shell] is accepted, the child exits
    with code 0, and one "exit-status" request with status 0 follows. *)
Example world_reported_trace :
  filter is_exit_status (trace samples.world_reported)
    = [EvSendRequest "exit-status" false 0]
  /\ filter is_spawn (trace samples.world_reported)
    = [EvCmdStart
         (mkCmd "/bin/sh" ["/bin/sh"]
            ["USER=demo"; "LOGNAME=demo"; "HOME=/"; "SHELL=/bin/sh"] "/" (Some 100))]
  /\ finished (vars samples.world_reported) = true.
Proof. repeat split. Qed.

Lemma world_reported_reachable :
  reachable (U := wire.unmarshal) samples.demo [] samples.world_reported.
Proof.
  unfold reachable.
  apply (rtc_l _ _ samples.world_running).
  { exact (step_request samples.demo samples.spawn_ok samples.shell_request
             (initial_world samples.demo []) eq_refl). }
  apply (rtc_l _ _ samples.world_child_dead).
  { apply (step_child_exit samples.demo 100 samples.world_running).
    - apply list_elem_of_singleton. reflexivity.
    - apply not_elem_of_nil. }
  apply (rtc_l _ _ samples.world_wait_returned).
  { apply (step_wait_return samples.demo
             (mkCmd "/bin/sh" ["/bin/sh"]
                ["USER=demo"; "LOGNAME=demo"; "HOME=/"; "SHELL=/bin/sh"] "/" (Some 100))
             100 None [GoCopyChannelToStdin; GoCtxWatch] [] samples.world_child_dead).
    - reflexivity.
    - reflexivity.
    - apply list_elem_of_singleton. reflexivity. }
  apply rtc_once.
  exact (step_finished_do samples.demo None [GoCopyChannelToStdin; GoCtxWatch] []
           samples.world_wait_returned eq_refl).
Qed.

Lemma exit_status_once_and_after_wait_witness :
  (length (filter is_exit_status (trace samples.world_reported)) <= 1)%nat
  /\ forall t1 name wantReply status t2,
       trace samples.world_reported
         = t1 ++ EvSendRequest name wantReply status :: t2 ->
       name = "exit-status"
       /\ exists pid err,
            status = exit_status err
            /\ EvWaitReturn pid err ∈ t1 /\ EvChildExit pid ∈ t1
            /\ pid ∈ children samples.world_reported.
Proof.
  exact (exit_status_once_and_after_wait wire.unmarshal samples.demo []
           samples.world_reported world_reported_reachable).
Defined.

(** * Further properties *)

(** ** The configuration: what [validate] accepts *)

Section ValidateFacts.
Variable strings_TrimSpace : string -> string.

(** A user entry [validate] lets through on its own. *)
Local Abbreviation sound_user := (fun user : config.User =>
  strings_TrimSpace (config.Username user) <> "" /\ config.Password user <> "").

Local Abbreviation trimmed := (fun user : config.User =>
  strings_TrimSpace (config.Username user)).

Lemma validate_users_None (us : list config.User) : forall seen : gset string,
  config.validate_users strings_TrimSpace seen us = None <->
  Forall sound_user us /\ NoDup (map trimmed us)
  /\ forall user, user ∈ us -> trimmed user ∉ seen.
Proof.
  induction us as [|user rest IH]; intros seen; simpl.
  - split; [|done]. intros _. repeat split; [constructor|constructor|].
    intros user Hin. by apply elem_of_nil in Hin.
  - destruct (String.eqb_spec (strings_TrimSpace (config.Username user)) "") as [He|Hne].
    { split; [done|]. intros (Hall & _). apply Forall_cons in Hall as [[Hu _] _]. done. }
    destruct (String.eqb_spec (config.Password user) "") as [Hp|Hp].
    { split; [done|]. intros (Hall & _). apply Forall_cons in Hall as [[_ Hu] _]. done. }
    destruct (decide (strings_TrimSpace (config.Username user) ∈ seen)) as [Hin|Hnin].
    { split; [done|]. intros (_ & _ & Hseen). exfalso.
      apply (Hseen user); [by left|done]. }
    rewrite IH. split.
    + intros (Hall & Hnd & Hseen). repeat split.
      * by constructor.
      * apply NoDup_cons. split; [|done].
        intros Hin. apply list_elem_of_fmap in Hin as (other & Heq & Hin).
        apply (Hseen other Hin). rewrite <- Heq.
        apply elem_of_union. left. by apply elem_of_singleton.
      * intros other [->|Hin]%elem_of_cons; [done|].
        intros Hs. apply (Hseen other Hin). apply elem_of_union. by right.
    + intros (Hall & Hnd & Hseen).
      apply Forall_cons in Hall as [_ Hall]. apply NoDup_cons in Hnd as [Hfresh Hnd].
      repeat split; [done|done|].
      intros other Hin [Hs|Hs]%elem_of_union.
      * apply elem_of_singleton in Hs. apply Hfresh.
        apply list_elem_of_fmap. by exists other.
      * apply (Hseen other); [by right|done].
Qed.
End ValidateFacts.

Lemma validate_None (strings_TrimSpace : string -> string) (c : config.Config) :
  config.validate strings_TrimSpace c = None <->
  config.ListenAddress c <> "" /\ config.Users c <> []
  /\ Forall (fun user => strings_TrimSpace (config.Username user) <> ""
                         /\ config.Password user <> "") (config.Users c)
  /\ NoDup (map (fun user => strings_TrimSpace (config.Username user)) (config.Users c)).
Proof.
  unfold config.validate.
  destruct (String.eqb_spec (config.ListenAddress c) "") as [He|Hne].
  { split; [done|]. by intros (? & _). }
  destruct (config.Users c) as [|user rest] eqn:Hus.
  { simpl. split; [done|]. by intros (_ & ? & _). }
  change ((length (user :: rest) =? 0)%nat) with false. cbv iota.
  rewrite validate_users_None. split.
  - intros (Hall & Hnd & _). done.
  - intros (_ & _ & Hall & Hnd). repeat split; [done|done|].
    intros other _ Hin. by apply elem_of_empty in Hin.
Qed.

(** X1: [validate] accepts a configuration exactly when its listen address is
    non-empty, it has at least one user, every user has a user name that is
    non-empty after trimming and a non-empty password, and no two trimmed
    user names are equal. *)
Theorem validate_accepts_iff (strings_TrimSpace : string -> string) (c : config.Config) :
  config.validate strings_TrimSpace c = None <->
  config.ListenAddress c <> "" /\ config.Users c <> []
  /\ Forall (fun user => strings_TrimSpace (config.Username user) <> ""
                         /\ config.Password user <> "") (config.Users c)
  /\ NoDup (map (fun user => strings_TrimSpace (config.Username user)) (config.Users c)).
Proof. apply validate_None. Qed.


(** ** The configuration [Load] hands over *)

(** X2: a configuration [Load] returns was read from the file and parsed;
    it keeps the users and the port, and the listen address, the shell and
    an absolute host-key path where the file sets them; it has the
    directory of the file as [configDir], a non-empty listen address and
    shell, at least one user, only users with a user name that is non-empty
    after trimming and a non-empty password, and pairwise different trimmed
    user names. *)
Theorem Load_gives_validated_config
    (filepath_Dir : string -> string) (filepath_Join : string -> string -> string)
    (filepath_IsAbs : string -> bool) (os_Getenv strings_TrimSpace : string -> string)
    (os_ReadFile : string -> option (list Byte.byte))
    (json_Unmarshal : list Byte.byte -> option config.Config)
    (path : string) (c : config.Config) :
  config.Load filepath_Dir filepath_Join filepath_IsAbs os_Getenv strings_TrimSpace
    os_ReadFile json_Unmarshal path = inl c ->
  (exists raw parsed,
     os_ReadFile path = Some raw /\ json_Unmarshal raw = Some parsed
     /\ config.Users c = config.Users parsed
     /\ config.ListenPort c = config.ListenPort parsed
     /\ (config.ListenAddress parsed <> "" ->
         config.ListenAddress c = config.ListenAddress parsed)
     /\ (config.Shell parsed <> "" -> config.Shell c = config.Shell parsed)
     /\ (config.HostKeyPath parsed <> "" ->
         filepath_IsAbs (config.HostKeyPath parsed) = true ->
         config.HostKeyPath c = config.HostKeyPath parsed))
  /\ config.configDir c = filepath_Dir path
  /\ config.ListenAddress c <> "" /\ config.Shell c <> ""
  /\ config.Users c <> []
  /\ Forall (fun user => strings_TrimSpace (config.Username user) <> ""
                         /\ config.Password user <> "") (config.Users c)
  /\ NoDup (map (fun user => strings_TrimSpace (config.Username user)) (config.Users c)).
Proof.
  unfold config.Load. intros HLoad.
  destruct (os_ReadFile path) as [raw|] eqn:Hread; [|done].
  destruct (json_Unmarshal raw) as [parsed|] eqn:Hjson; [|done].
  destruct (config.validate strings_TrimSpace _) as [err|] eqn:Hval; [done|].
  injection HLoad as <-.
  apply validate_None in Hval as (Haddr & Hus & Hall & Hnd).
  split; [|repeat split; try done].
  - exists raw, parsed. repeat split; try done.
    + intros Hne. unfold config.applyDefaults, config.with_configDir; simpl.
      by destruct (String.eqb_spec (config.ListenAddress parsed) "").
    + intros Hne. unfold config.applyDefaults, config.with_configDir; simpl.
      by destruct (String.eqb_spec (config.Shell parsed) "").
    + intros Hne Habs. unfold config.applyDefaults, config.with_configDir; simpl.
      destruct (String.eqb_spec (config.HostKeyPath parsed) ""); [done|].
      by rewrite Habs.
  - unfold config.applyDefaults; simpl.
    destruct (String.eqb_spec (config.Shell parsed) "") as [He|Hne]; [|done].
    destruct (String.eqb_spec (os_Getenv "SHELL") "") as [He'|Hne']; simpl; done.
Qed.

Lemma Load_gives_validated_config_witness :
  let c := config.mkConfig ":2200" 2200 "/etc/tinyssh/tinyssh_host_key" "/bin/sh"
             [config.mkUser "demo" "pw"] "/etc/tinyssh" in
  config.configDir c = "/etc/tinyssh"
  /\ config.ListenAddress c <> "" /\ config.Shell c <> ""
  /\ config.Users c <> []
  /\ Forall (fun user => config.Username user <> "" /\ config.Password user <> "")
       (config.Users c)
  /\ NoDup (map (fun user => config.Username user) (config.Users c)).
Proof.
  exact (proj2 (Load_gives_validated_config (fun _ => "/etc/tinyssh")
    (fun d f => d +:+ "/" +:+ f) (String.prefix "/") (fun _ => "") (fun s => s)
    (fun _ => Some []) (fun _ => Some samples.config_no_address)
    "/etc/tinyssh/config.json"
    (config.mkConfig ":2200" 2200 "/etc/tinyssh/tinyssh_host_key" "/bin/sh"
       [config.mkUser "demo" "pw"] "/etc/tinyssh")
    eq_refl)).
Defined.

(** ** The credential map *)

Lemma Credentials_fold (us : list config.User) : forall (m : gmap string string) (u : string),
  foldl (fun creds user => <[config.Username user := config.Password user]> creds) m us !! u
  = match last (filter (fun user => config.Username user = u) us) with
    | Some user => Some (config.Password user)
    | None => m !! u
    end.
Proof.
  induction us as [|user rest IH] using rev_ind; intros m u; [done|].
  rewrite foldl_app, filter_app. simpl.
  rewrite filter_cons, filter_nil.
  destruct (decide (config.Username user = u)) as [<-|Hne].
  - rewrite last_snoc. by rewrite lookup_insert_eq.
  - rewrite app_nil_r. rewrite lookup_insert_ne by done. apply IH.
Qed.

Lemma Credentials_lookup (c : config.Config) (u : string) :
  config.Credentials c !! u
  = config.Password
      <$> last (filter (fun user => config.Username user = u) (config.Users c)).
Proof.
  unfold config.Credentials. rewrite Credentials_fold.
  destruct (last _); [done|]. apply lookup_empty.
Qed.

(** X3: the credential map holds, for every user name, the password of the
    last entry of [Users] with that name, and nothing for a name no entry
    has. *)
Theorem Credentials_last_entry_wins (c : config.Config) (u : string) :
  config.Credentials c !! u
  = config.Password
      <$> last (filter (fun user => config.Username user = u) (config.Users c)).
Proof. apply Credentials_lookup. Qed.

Lemma last_filter_unique (us : list config.User) (u : string) (user : config.User) :
  NoDup (map config.Username us) ->
  last (filter (fun x => config.Username x = u) us) = Some user <->
  user ∈ us /\ config.Username user = u.
Proof.
  induction us as [|x rest IH] using rev_ind; intros Hnd.
  - simpl. split; [done|]. intros [Hin _]. by apply elem_of_nil in Hin.
  - rewrite map_app in Hnd. apply NoDup_app in Hnd as (Hnd & Hfresh & _).
    rewrite filter_app, filter_cons, filter_nil.
    destruct (decide (config.Username x = u)) as [Hx|Hx].
    + rewrite last_snoc. split.
      * intros [= <-]. split; [|done]. apply elem_of_app. right. by left.
      * intros [[Hin|Hin]%elem_of_app Hu].
        -- exfalso. apply (Hfresh (config.Username user)).
           ++ apply list_elem_of_fmap. by exists user.
           ++ simpl. rewrite Hu, <- Hx. by left.
        -- apply list_elem_of_singleton in Hin. by subst.
    + rewrite app_nil_r, (IH Hnd). split.
      * intros [Hin Hu]. split; [|done]. apply elem_of_app. by left.
      * intros [[Hin|Hin]%elem_of_app Hu]; [done|].
        apply list_elem_of_singleton in Hin. by subst.
Qed.

Lemma validated_names_unique (strings_TrimSpace : string -> string) (c : config.Config) :
  config.validate strings_TrimSpace c = None -> NoDup (map config.Username (config.Users c)).
Proof.
  intros (_ & _ & _ & Hnd)%validate_None.
  apply (NoDup_fmap_1 strings_TrimSpace). by rewrite <- list_fmap_compose.
Qed.

Lemma Credentials_validated
    (strings_TrimSpace : string -> string) (c : config.Config) (u p : string) :
  config.validate strings_TrimSpace c = None ->
  (config.Credentials c !! u = Some p <-> config.mkUser u p ∈ config.Users c)
  /\ (config.Credentials c !! u = Some p -> p <> "").
Proof.
  intros Hval. pose proof (validated_names_unique _ _ Hval) as Hnd.
  apply validate_None in Hval as (_ & _ & Hall & _).
  rewrite Forall_forall in Hall.
  assert (Hiff : config.Credentials c !! u = Some p <-> config.mkUser u p ∈ config.Users c).
  { rewrite Credentials_lookup. split.
    - destruct (last _) as [user|] eqn:Hlast; [|done]. intros [= <-].
      apply last_filter_unique in Hlast as [Hin <-]; [|done]. by destruct user.
    - intros Hin. assert (Hlast : last (filter (fun x => config.Username x = u)
                                          (config.Users c)) = Some (config.mkUser u p))
        by (by apply last_filter_unique).
      by rewrite Hlast. }
  split; [done|].
  intros Hin%Hiff. by destruct (Hall _ Hin).
Qed.

(** X4: for a configuration [validate] accepts, the credential map holds the
    pair of a user name and a password exactly when [Users] lists it, and
    every password it holds is non-empty. *)
Theorem Credentials_of_validated_config
    (strings_TrimSpace : string -> string) (c : config.Config) (u p : string) :
  config.validate strings_TrimSpace c = None ->
  (config.Credentials c !! u = Some p <-> config.mkUser u p ∈ config.Users c)
  /\ (config.Credentials c !! u = Some p -> p <> "").
Proof. apply Credentials_validated. Qed.

Lemma Credentials_of_validated_config_witness :
  (config.Credentials (config.mkConfig ":2200" 2200 "" "/bin/sh"
                         [config.mkUser "demo" "pw"] "") !! "demo" = Some "pw"
   <-> config.mkUser "demo" "pw" ∈ [config.mkUser "demo" "pw"])
  /\ (config.Credentials (config.mkConfig ":2200" 2200 "" "/bin/sh"
                            [config.mkUser "demo" "pw"] "") !! "demo" = Some "pw"
      -> "pw" <> "").
Proof.
  exact (Credentials_of_validated_config (fun s => s)
           (config.mkConfig ":2200" 2200 "" "/bin/sh" [config.mkUser "demo" "pw"] "")
           "demo" "pw" eq_refl).
Defined.

(** ** Logging in against a validated configuration *)

Section LoginFacts.
Context {PrivateKey Signer : Type}.
Variable rsa_GenerateKey : Z -> PrivateKey + error.
Variable x509_MarshalPKCS1PrivateKey : PrivateKey -> list Byte.byte.
Variable pem_EncodeToMemory : string -> list Byte.byte -> list Byte.byte.
Variable ssh_ParsePrivateKey : list Byte.byte -> Signer + error.
Variable components : string -> path.

Local Abbreviation New := (supervisor.New PrivateKey Signer rsa_GenerateKey
  x509_MarshalPKCS1PrivateKey pem_EncodeToMemory ssh_ParsePrivateKey components).

Lemma New_server (c : config.Config) (fs : filesystem) (srv : supervisor.Server Signer) :
  (New (Some c) fs).1.1 = inl srv ->
  supervisor.cfg srv = c /\ supervisor.creds srv = config.Credentials c
  /\ exists pemBytes, ssh_ParsePrivateKey pemBytes = inl (supervisor.hostKey srv).
Proof.
  unfold supervisor.New.
  destruct (loadOrCreateHostKey _ _ _ _ _ _ _ fs) as [[[key|err] fs'] calls] eqn:Hload;
    simpl; [|done].
  intros [= <-]. simpl. repeat split.
  unfold loadOrCreateHostKey, parse_host_key in Hload.
  repeat case_match; simplify_eq; eauto.
Qed.
End LoginFacts.

(** X5: on the server [New] builds from a configuration [validate] accepts,
    the password callback accepts an attempt exactly when [Users] lists the
    user name with that password, and never accepts an empty password. *)
Theorem login_accepts_configured_pairs_only
    (PrivateKey Signer : Type) (rsa_GenerateKey : Z -> PrivateKey + error)
    (x509_MarshalPKCS1PrivateKey : PrivateKey -> list Byte.byte)
    (pem_EncodeToMemory : string -> list Byte.byte -> list Byte.byte)
    (ssh_ParsePrivateKey : list Byte.byte -> Signer + error)
    (components : string -> path) (strings_TrimSpace : string -> string)
    (c : config.Config) (fs : filesystem) (srv : supervisor.Server Signer)
    (u : string) (password : list Byte.byte) :
  config.validate strings_TrimSpace c = None ->
  (supervisor.New PrivateKey Signer rsa_GenerateKey x509_MarshalPKCS1PrivateKey
     pem_EncodeToMemory ssh_ParsePrivateKey components (Some c) fs).1.1 = inl srv ->
  (validateUser (supervisor.creds srv) u password = None <->
     exists p, config.mkUser u p ∈ config.Users c /\ bytes_of_string p = password)
  /\ validateUser (supervisor.creds srv) u [] <> None.
Proof.
  intros Hval Hnew.
  destruct (New_server _ _ _ _ _ _ _ _ Hnew) as (_ & Hcreds & _). rewrite Hcreds.
  assert (Hiff : forall pw, validateUser (config.Credentials c) u pw = None <->
            exists p, config.mkUser u p ∈ config.Users c /\ bytes_of_string p = pw).
  { intros pw. unfold validateUser.
    destruct (config.Credentials c !! u) as [expected|] eqn:Hlook.
    - destruct (Credentials_validated strings_TrimSpace c u expected Hval)
        as [Hconf _]. apply Hconf in Hlook.
      destruct (Z.eqb_spec (ConstantTimeCompare (bytes_of_string expected) pw) 1)
        as [Heq|Hne]; simpl.
      + apply ConstantTimeCompare_spec in Heq. split; [|done].
        intros _. by exists expected.
      + split; [done|]. intros (p & Hin & Hpw). exfalso. apply Hne.
        apply ConstantTimeCompare_spec.
        pose proof (validated_names_unique _ _ Hval) as Hnd.
        assert (p = expected); [|by subst].
        apply list_elem_of_lookup in Hin as [i Hi]. apply list_elem_of_lookup in Hlook as [j Hj].
        assert (i = j); [|congruence].
        apply (NoDup_lookup _ i j u Hnd); rewrite list_lookup_fmap; [by rewrite Hi|by rewrite Hj].
    - split; [done|]. intros (p & Hin & _).
      destruct (Credentials_validated strings_TrimSpace c u p Hval)
        as [Hconf _]. apply Hconf in Hin. congruence. }
  split; [apply Hiff|].
  intros (p & Hin & Hpw)%Hiff.
  apply validate_None in Hval as (_ & _ & Hall & _).
  rewrite Forall_forall in Hall. destruct (Hall _ Hin) as [_ Hp]. simpl in Hp.
  destruct p; [done|discriminate].
Qed.


Lemma login_accepts_configured_pairs_only_witness :
  let c := config.mkConfig ":2200" 2200 "/etc/tinyssh/tinyssh_host_key" "/bin/sh"
             [config.mkUser "demo" "pw"] "/etc/tinyssh" in
  let srv := supervisor.mkServer c (config.Credentials c) (bytes_of_string "PEM") in
  (validateUser (supervisor.creds srv) "demo" (bytes_of_string "pw") = None <->
     exists p, config.mkUser "demo" p ∈ config.Users c
               /\ bytes_of_string p = bytes_of_string "pw")
  /\ validateUser (supervisor.creds srv) "demo" [] <> None.
Proof.
  refine (login_accepts_configured_pairs_only unit (list Byte.byte)
    (fun _ => inl tt) (fun _ => []) (fun _ b => b) (fun b => inl b)
    (fun _ => samples.key_path) (fun s => s)
    (config.mkConfig ":2200" 2200 "/etc/tinyssh/tinyssh_host_key" "/bin/sh"
       [config.mkUser "demo" "pw"] "/etc/tinyssh")
    samples.fs_with_key _ "demo" (bytes_of_string "pw") eq_refl _).
  vm_compute. reflexivity.
Defined.


(** ** The host-key store: directories, first run and later runs *)

(** One round of [mkdir_from]: the test and creation of [done]. *)
Lemma mkdir_from_unfold (done todo : path) (perm : Z) (fs : filesystem) :
  mkdir_from done todo perm fs
  = match fs !! done with
    | Some (RegFile _ _) => inr (PathError "mkdir" ENOTDIR)
    | Some (Directory _) =>
        match todo with
        | [] => inl fs
        | c :: rest => mkdir_from (done ++ [c]) rest perm fs
        end
    | None =>
        match todo with
        | [] => inl (<[done := Directory perm]> fs)
        | c :: rest => mkdir_from (done ++ [c]) rest perm (<[done := Directory perm]> fs)
        end
    end.
Proof. destruct todo; simpl; destruct (fs !! done) as [[]|]; reflexivity. Qed.

Lemma app_take_ne (done rest : path) (c : string) (j : nat) :
  done ++ c :: take j rest <> done.
Proof.
  intros Heq. apply (f_equal length) in Heq. rewrite length_app in Heq. simpl in Heq. lia.
Qed.

Lemma mkdir_from_dirs (todo : path) : forall (done : path) (perm : Z) (fs fs' : filesystem),
  mkdir_from done todo perm fs = inl fs' ->
  forall j, (j <= length todo)%nat ->
    exists m, fs' !! (done ++ take j todo) = Some (Directory m).
Proof.
  induction todo as [|c rest IH]; intros done perm fs fs' Hmk j Hj;
    rewrite mkdir_from_unfold in Hmk.
  - simpl in Hj. replace j with 0%nat by lia. simpl. rewrite app_nil_r.
    destruct (fs !! done) as [[content m|m]|] eqn:Hd; simplify_eq; [by exists m|].
    exists perm. apply lookup_insert_eq.
  - destruct j as [|j]; simpl.
    + rewrite app_nil_r.
      destruct (fs !! done) as [[content m|m]|] eqn:Hd; [done| |].
      * exists m. by apply (mkdir_from_preserves _ _ _ _ _ Hmk).
      * exists perm. apply (mkdir_from_preserves _ _ _ _ _ Hmk). apply lookup_insert_eq.
    + simpl in Hj.
      assert (Hrec : exists fs1, mkdir_from (done ++ [c]) rest perm fs1 = inl fs')
        by (destruct (fs !! done) as [[content m|m]|]; [done|eauto|eauto]).
      destruct Hrec as [fs1 Hrec]. destruct (IH _ _ _ _ Hrec j) as [m Hm]; [lia|].
      exists m. by rewrite <- app_assoc in Hm.
Qed.

Lemma mkdir_from_new (todo : path) : forall (done : path) (perm : Z) (fs fs' : filesystem),
  mkdir_from done todo perm fs = inl fs' ->
  forall q n, fs' !! q = Some n ->
    fs !! q = Some n
    \/ (fs !! q = None /\ n = Directory perm
        /\ exists j, (j <= length todo)%nat /\ q = done ++ take j todo).
Proof.
  induction todo as [|c rest IH]; intros done perm fs fs' Hmk q n Hq;
    rewrite mkdir_from_unfold in Hmk.
  - destruct (fs !! done) as [[content m|m]|] eqn:Hd; simplify_eq; [by left|].
    destruct (decide (q = done)) as [->|Hne].
    + rewrite lookup_insert_eq in Hq. injection Hq as <-. right.
      repeat split; [done|]. exists 0%nat. simpl. by rewrite app_nil_r.
    + rewrite lookup_insert_ne in Hq by done. by left.
  - destruct (fs !! done) as [[content m|m]|] eqn:Hd; [done| |].
    + destruct (IH _ _ _ _ Hmk q n Hq) as [Hold|(Hn & -> & j & Hj & ->)]; [by left|].
      right. repeat split; [done|]. exists (S j). simpl.
      rewrite <- app_assoc. split; [lia|done].
    + destruct (IH _ _ _ _ Hmk q n Hq) as [Hold|(Hn & -> & j & Hj & ->)].
      * destruct (decide (q = done)) as [->|Hne].
        -- rewrite lookup_insert_eq in Hold. injection Hold as <-. right.
           repeat split; [done|]. exists 0%nat. simpl. rewrite app_nil_r. split; [lia|done].
        -- rewrite lookup_insert_ne in Hold by done. by left.
      * right. rewrite <- app_assoc in Hn. simpl in Hn.
        rewrite lookup_insert_ne in Hn by (intros Heq; symmetry in Heq; by apply app_take_ne in Heq).
        rewrite <- app_assoc. simpl. repeat split; [done|]. exists (S j). split; [lia|done].
Qed.

Lemma mkdir_from_error (todo : path) : forall (done : path) (perm : Z) (fs : filesystem) e,
  mkdir_from done todo perm fs = inr e ->
  e = PathError "mkdir" ENOTDIR
  /\ exists j content m, (j <= length todo)%nat
       /\ fs !! (done ++ take j todo) = Some (RegFile content m).
Proof.
  induction todo as [|c rest IH]; intros done perm fs e Hmk;
    rewrite mkdir_from_unfold in Hmk.
  - destruct (fs !! done) as [[content m|m]|] eqn:Hd; simplify_eq.
    split; [done|]. exists 0%nat, content, m. simpl. rewrite app_nil_r. split; [lia|done].
  - destruct (fs !! done) as [[content m|m]|] eqn:Hd.
    + simplify_eq. split; [done|]. exists 0%nat, content, m. simpl.
      rewrite app_nil_r. split; [lia|done].
    + destruct (IH _ _ _ _ Hmk) as (-> & j & content & m' & Hj & Hreg). split; [done|].
      exists (S j), content, m'. simpl. rewrite <- app_assoc in Hreg. split; [lia|done].
    + destruct (IH _ _ _ _ Hmk) as (-> & j & content & m' & Hj & Hreg). split; [done|].
      exists (S j), content, m'. simpl. rewrite <- app_assoc in Hreg. simpl in Hreg.
      rewrite lookup_insert_ne in Hreg by (intros Heq; symmetry in Heq; by apply app_take_ne in Heq).
      split; [lia|done].
Qed.

Lemma MkdirAll_result (d : path) (perm : Z) (fs : filesystem) :
  match MkdirAll d perm fs with
  | inl fs' =>
      dirs_exist fs' d
      /\ (forall q n, fs !! q = Some n -> fs' !! q = Some n)
      /\ (forall q n, fs' !! q = Some n ->
            fs !! q = Some n
            \/ (fs !! q = None /\ n = Directory perm
                /\ exists k, (0 < k <= length d)%nat /\ q = take k d))
  | inr e =>
      e = PathError "mkdir" ENOTDIR
      /\ exists k content m, (0 < k <= length d)%nat
           /\ fs !! take k d = Some (RegFile content m)
  end.
Proof.
  destruct (MkdirAll d perm fs) as [fs'|e] eqn:Hmk.
  - split; [|split].
    + destruct d as [|c rest]; [intros k Hk; simpl in Hk; lia|]. simpl in Hmk.
      intros [|k] Hk; [lia|]. simpl in Hk.
      destruct (mkdir_from_dirs _ _ _ _ _ Hmk k) as [m Hm]; [lia|]. by exists m.
    + by apply (MkdirAll_preserves d perm).
    + destruct d as [|c rest]; simpl in Hmk; [simplify_eq; by left|].
      intros q n Hq.
      destruct (mkdir_from_new _ _ _ _ _ Hmk q n Hq) as [Hold|(Hn & -> & j & Hj & ->)];
        [by left|right].
      repeat split; [done|]. exists (S j). simpl. split; [lia|done].
  - destruct d as [|c rest]; simpl in Hmk; [done|].
    destruct (mkdir_from_error _ _ _ _ _ Hmk) as (-> & j & content & m & Hj & Hreg).
    split; [done|]. exists (S j), content, m. simpl. split; [lia|done].
Qed.


Lemma take_removelast_ne (p : path) (k : nat) : p <> [] -> take k (removelast p) <> p.
Proof.
  intros Hp Heq. apply (f_equal length) in Heq.
  rewrite length_take in Heq.
  assert (length (removelast p) < length p)%nat; [|lia].
  destruct p as [|c rest] using rev_ind; [done|].
  rewrite removelast_last, length_app. simpl. lia.
Qed.

Lemma dirs_exist_insert (fs : filesystem) (p : path) (n : node) :
  p <> [] -> dirs_exist fs (filepath_Dir p) ->
  dirs_exist (<[p := n]> fs) (filepath_Dir p).
Proof.
  intros Hp Hdirs k Hk. destruct (Hdirs k Hk) as [m Hm]. exists m.
  rewrite lookup_insert_ne; [done|].
  intros Heq. symmetry in Heq. by apply take_removelast_ne in Heq.
Qed.

Section HostKeyRuns.
Context {PrivateKey Signer : Type}.
Variable rsa_GenerateKey : Z -> PrivateKey + error.
Variable x509_MarshalPKCS1PrivateKey : PrivateKey -> list Byte.byte.
Variable pem_EncodeToMemory : string -> list Byte.byte -> list Byte.byte.
Variable ssh_ParsePrivateKey : list Byte.byte -> Signer + error.

Local Abbreviation load := (loadOrCreateHostKey PrivateKey Signer rsa_GenerateKey
  x509_MarshalPKCS1PrivateKey pem_EncodeToMemory ssh_ParsePrivateKey).

Lemma first_run_creates (p : path) (fs fs' : filesystem) (signer : Signer)
    (calls : list fs_call) :
  fs !! p = None ->
  load p fs = (inl signer, fs', calls) ->
  exists key fs1,
    rsa_GenerateKey 4096 = inl key
    /\ MkdirAll (filepath_Dir p) perm_dir fs = inl fs1
    /\ p <> [] /\ fs1 !! p = None
    /\ let pemBytes := pem_EncodeToMemory "RSA PRIVATE KEY"
                         (x509_MarshalPKCS1PrivateKey key) in
       ssh_ParsePrivateKey pemBytes = inl signer
       /\ fs' = <[p := RegFile pemBytes perm_key]> fs1
       /\ calls = [CallMkdirAll (filepath_Dir p) perm_dir; CallReadFile p;
                   CallWriteFile p pemBytes perm_key].
Proof.
  intros Hp Hload. unfold loadOrCreateHostKey in Hload.
  destruct (MkdirAll (filepath_Dir p) perm_dir fs) as [fs1|err] eqn:Hmk; [|done].
  assert (Hp1 : fs1 !! p = None).
  { destruct (fs1 !! p) as [n|] eqn:Hn; [|done].
    pose proof (MkdirAll_result (filepath_Dir p) perm_dir fs) as Hall.
    rewrite Hmk in Hall. destruct Hall as (_ & _ & Hnew).
    destruct (Hnew p n Hn) as [Hold|(_ & _ & k & _ & Heq)]; [congruence|].
    destruct p as [|c rest]; [|symmetry in Heq; by apply take_removelast_ne in Heq].
    simpl in Hmk. congruence. }
  unfold ReadFile in Hload. rewrite Hp1 in Hload. simpl in Hload.
  unfold generateHostKey in Hload.
  destruct (rsa_GenerateKey 4096) as [key|gerr] eqn:Hgen; [|done].
  unfold WriteFile in Hload. rewrite Hp1 in Hload.
  assert (Hne : p <> []).
  { intros ->. simpl in Hload, Hp1. by rewrite Hp1 in Hload. }
  exists key, fs1. repeat split; try done;
    unfold parse_host_key in Hload;
    destruct (fs1 !! filepath_Dir p) as [[]|]; try done;
    destruct (ssh_ParsePrivateKey _) eqn:Hparse; try done;
    try (destruct p as [|? [|? ?]]; try done); by simplify_eq.
Qed.
End HostKeyRuns.

(** X6: when the host-key file is missing and the first run returns a
    signer, the file then holds the generated PEM with mode 0600 below
    existing directories, everything that was there is kept, and a second
    run returns the same signer, changes nothing and does not write. *)
Theorem host_key_created_once_then_reused
    (PrivateKey Signer : Type) (rsa_GenerateKey : Z -> PrivateKey + error)
    (x509_MarshalPKCS1PrivateKey : PrivateKey -> list Byte.byte)
    (pem_EncodeToMemory : string -> list Byte.byte -> list Byte.byte)
    (ssh_ParsePrivateKey : list Byte.byte -> Signer + error)
    (p : path) (fs fs' : filesystem) (signer : Signer) (calls : list fs_call) :
  let load := loadOrCreateHostKey PrivateKey Signer rsa_GenerateKey
                x509_MarshalPKCS1PrivateKey pem_EncodeToMemory ssh_ParsePrivateKey in
  fs !! p = None ->
  load p fs = (inl signer, fs', calls) ->
  (exists key,
     rsa_GenerateKey 4096 = inl key
     /\ fs' !! p = Some (RegFile (pem_EncodeToMemory "RSA PRIVATE KEY"
                                    (x509_MarshalPKCS1PrivateKey key)) perm_key))
  /\ dirs_exist fs' (filepath_Dir p)
  /\ (forall q n, fs !! q = Some n -> fs' !! q = Some n)
  /\ load p fs' = (inl signer, fs',
                   [CallMkdirAll (filepath_Dir p) perm_dir; CallReadFile p]).
Proof.
  intros load Hp Hload. subst load.
  destruct (first_run_creates _ _ _ _ p fs fs' signer calls Hp Hload)
    as (key & fs1 & Hgen & Hmk & Hne & Hp1 & Hparse & -> & ->).
  pose proof (MkdirAll_result (filepath_Dir p) perm_dir fs) as Hall.
  rewrite Hmk in Hall. destruct Hall as (Hdirs & Hkeep & _).
  assert (Hdirs' : dirs_exist (<[p := RegFile (pem_EncodeToMemory "RSA PRIVATE KEY"
                     (x509_MarshalPKCS1PrivateKey key)) perm_key]> fs1) (filepath_Dir p))
    by (by apply dirs_exist_insert).
  split; [|split; [|split]].
  - exists key. split; [done|]. apply lookup_insert_eq.
  - done.
  - intros q n Hq. rewrite lookup_insert_ne; [by apply Hkeep|]. congruence.
  - unfold loadOrCreateHostKey. rewrite (MkdirAll_existing _ _ _ Hdirs').
    unfold ReadFile. rewrite lookup_insert_eq.
    change (owner_readable perm_key) with true. cbv iota.
    unfold parse_host_key. by rewrite Hparse.
Qed.



(** ** The connection demultiplexer *)

Lemma serve_channels_events (shell user : string) (channels : list supervisor.NewChannel) :
  forall (i0 : nat) (e : supervisor.conn_event),
    e ∈ supervisor.serve_channels shell user i0 channels <->
    exists k ch, channels !! k = Some ch
      /\ if negb (String.eqb (supervisor.ChannelType ch) "session") then
           e = supervisor.CReject (i0 + k) supervisor.UnknownChannelType
                 "unknown channel type"
         else match supervisor.accept_error ch with
              | Some _ => e = supervisor.CLog "ERROR" "channel accept"
              | None => e = supervisor.CAccept (i0 + k)
                        \/ e = supervisor.CGoHandle (i0 + k) (mkHandler user shell)
              end.
Proof.
  induction channels as [|ch rest IH]; intros i0 e; simpl.
  - split; [by intros ?%elem_of_nil|]. by intros (k & c & Hk & _).
  - rewrite elem_of_app, IH. split.
    + intros [Hin|(k & c & Hk & He)].
      * exists 0%nat, ch. split; [done|]. rewrite Nat.add_0_r.
        destruct (negb _); [by apply list_elem_of_singleton in Hin|].
        destruct (supervisor.accept_error ch); [by apply list_elem_of_singleton in Hin|].
        apply elem_of_cons in Hin as [->|Hin]; [by left|].
        apply list_elem_of_singleton in Hin. by right.
      * exists (S k), c. split; [done|]. by rewrite Nat.add_succ_r.
    + intros ([|k] & c & Hk & He); simpl in Hk.
      * injection Hk as <-. left. rewrite Nat.add_0_r in He.
        destruct (negb _); [subst; by left|].
        destruct (supervisor.accept_error ch); [subst; by left|].
        destruct He as [->| ->]; [by left|right; by left].
      * right. exists k, c. split; [done|]. by rewrite Nat.add_succ_r in He.
Qed.

(** X8: [handleConnection] accepts exactly the channel opens of type
    "session" whose [Accept] succeeds, after a successful handshake; it
    starts a session handler for each of them, with the user of the
    connection and the configured shell; it rejects exactly the other
    types with "unknown channel type"; it returns no error exactly when the
    handshake succeeded; and it closes the connection last and only once. *)
Theorem handleConnection_accepts_session_channels_only
    (shell : string) (handshake : string + error)
    (channels : list supervisor.NewChannel) :
  let r := supervisor.handleConnection shell handshake channels in
  (forall i, supervisor.CAccept i ∈ r.2 <->
     exists user ch, handshake = inl user /\ channels !! i = Some ch
       /\ supervisor.ChannelType ch = "session" /\ supervisor.accept_error ch = None)
  /\ (forall i h, supervisor.CGoHandle i h ∈ r.2 <->
        supervisor.CAccept i ∈ r.2
        /\ exists user, handshake = inl user /\ h = mkHandler user shell)
  /\ (forall i reason message, supervisor.CReject i reason message ∈ r.2 <->
        reason = supervisor.UnknownChannelType /\ message = "unknown channel type"
        /\ exists user ch, handshake = inl user /\ channels !! i = Some ch
             /\ supervisor.ChannelType ch <> "session")
  /\ (r.1 = None <-> exists user, handshake = inl user)
  /\ exists before, r.2 = before ++ [supervisor.CNetClose]
       /\ supervisor.CNetClose ∉ before.
Proof.
  assert (Hin : forall user e,
    e ∈ (supervisor.handleConnection shell (inl user) channels).2 <->
    e = supervisor.CLog "INFO" "client connected" \/ e = supervisor.CGoDiscardRequests
    \/ e ∈ supervisor.serve_channels shell user 0 channels
    \/ e = supervisor.CLog "INFO" "client disconnected" \/ e = supervisor.CNetClose).
  { intros user e. simpl. rewrite !elem_of_cons, elem_of_app, !elem_of_cons, elem_of_nil.
    tauto. }
  destruct handshake as [user|err]; simpl.
  - split; [|split; [|split; [|split]]].
    + intros i. rewrite (Hin user), serve_channels_events. split.
      * intros [?|[?|[(k & ch & Hk & He)|[?|?]]]]; try done.
        exists user, ch. simpl in He.
        destruct (String.eqb_spec (supervisor.ChannelType ch) "session"); simpl in He;
          [|done].
        destruct (supervisor.accept_error ch); [done|].
        destruct He as [[= ->]|?]; done.
      * intros (? & ch & [= <-] & Hk & Hty & Hacc). right; right; left.
        exists i, ch. split; [done|]. rewrite Hty, Hacc. simpl. by left.
    + intros i h. rewrite !(Hin user), !serve_channels_events. split.
      * intros [?|[?|[(k & ch & Hk & He)|[?|?]]]]; try done.
        simpl in He. destruct (negb _) eqn:Hty; [done|].
        destruct (supervisor.accept_error ch) eqn:Hacc; [done|].
        destruct He as [?|[= -> ->]]; [done|]. split; [|by exists user].
        right; right; left. exists k, ch. split; [done|]. rewrite Hty, Hacc. by left.
      * intros [[?|[?|[(k & ch & Hk & He)|[?|?]]]] (? & [= <-] & ->)]; try done.
        right; right; left. exists k, ch. split; [done|]. simpl in *.
        destruct (negb _); [done|]. destruct (supervisor.accept_error ch); [done|].
        destruct He as [[= ->]|?]; [|done]. by right.
    + intros i reason message. rewrite (Hin user), serve_channels_events. split.
      * intros [?|[?|[(k & ch & Hk & He)|[?|?]]]]; try done.
        simpl in He.
        destruct (String.eqb_spec (supervisor.ChannelType ch) "session"); simpl in He.
        -- destruct (supervisor.accept_error ch); [done|]. by destruct He.
        -- injection He as -> -> ->. repeat split. by exists user, ch.
      * intros (-> & -> & ? & ch & [= <-] & Hk & Hty). right; right; left.
        exists i, ch. split; [done|].
        by destruct (String.eqb_spec (supervisor.ChannelType ch) "session").
    + split; [intros _; by exists user|done].
    + exists ([supervisor.CLog "INFO" "client connected"; supervisor.CGoDiscardRequests]
                ++ supervisor.serve_channels shell user 0 channels
                ++ [supervisor.CLog "INFO" "client disconnected"]). split.
      * simpl. do 2 f_equal. by rewrite <- app_assoc.
      * simpl.
        rewrite !elem_of_cons, elem_of_app, serve_channels_events, list_elem_of_singleton.
        intros [?|[?|[(k & ch & _ & He)|?]]]; try done.
        destruct (negb _); [done|]. destruct (supervisor.accept_error ch); [done|].
        by destruct He.
  - split; [|split; [|split; [|split]]].
    + intros i. split.
      * intros Hi. apply list_elem_of_singleton in Hi. done.
      * by intros (? & ? & ? & _).
    + intros i h. split.
      * intros Hi. apply list_elem_of_singleton in Hi. done.
      * by intros [_ (? & ? & _)].
    + intros i reason message. split.
      * intros Hi. apply list_elem_of_singleton in Hi. done.
      * by intros (_ & _ & ? & ? & ? & _).
    + split; [done|]. by intros [? ?].
    + exists []. split; [done|]. apply not_elem_of_nil.
Qed.


(** ** The accept loop *)




(** ** Replies *)

(** X10: whatever the request and the state of the session, the request
    loop sends exactly one reply when the request asks for one and none
    when it does not. *)
Theorem every_request_is_replied_once_when_asked
    (U : Unmarshal) (h : sessionHandler) (o : spawn_outcome) (req : Request)
    (s : session) :
  length (filter invariants.is_reply (handle_request h o req s).2)
  = if WantReply req then 1%nat else 0%nat.
Proof.
  destruct s as [env0 cmd0 ptmx0 want0 cols0 rows0 fin0].
  destruct o as [opty opipe ostart pid].
  destruct req as [type want payload]. simpl.
  run_cases; reflexivity.
Qed.

(** ** Resizing twice *)

(** X11: handling a [window-change] request a second time with the same
    payload leaves the session variables, the size of the PTY master
    included, as the first time left them. *)
Theorem window_change_twice_is_once
    (U : Unmarshal) (h : sessionHandler) (o o' : spawn_outcome)
    (want want' : bool) (payload : list Byte.byte) (s : session) :
  let once := (handle_request h o (mkRequest "window-change" want payload) s).1.2 in
  (handle_request h o' (mkRequest "window-change" want' payload) once).1.2 = once.
Proof.
  destruct s as [env0 cmd0 [[[] sz]|] want0 cols0 rows0 fin0]; run_session;
    destruct (unmarshal_windowChange payload) as [msg|] eqn:Hmsg; simpl;
    destruct want, want'; simpl; rewrite ?Hmsg; reflexivity.
Qed.


(** ** The child a session starts *)

Section ChildFacts.
Context {U : Unmarshal}.
Variable h : sessionHandler.

Lemma start_shape o command s :
  let r := start h o command s in
  env r.1.2 = env s /\ finished r.1.2 = finished s
  /\ (forall pid sig, EvSignal pid sig ∉ r.2)
  /\ match r.1.1 with
     | Some err =>
         cmd r.1.2 = cmd s
         /\ (ptmx s = None \/ is_Some (cmd s) -> r.1.2 = s)
         /\ (forall g, g ∈ omap spawned_goroutine r.2 -> invariants.is_reaper g = false)
     | None =>
         cmd s = None
         /\ cmd r.1.2
            = Some (mkCmd (shell h)
                      (shell h :: if negb (String.eqb command "") then ["-c"; command]
                                  else [])
                      (env s) "/" (Some (new_pid o)))
         /\ omap spawned_child r.2 = [new_pid o]
         /\ (forall f, ptmx r.1.2 = Some f -> closed f = false \/ ptmx s = Some f)
     end.
Proof.
  destruct s as [env0 cmd0 ptmx0 want0 cols0 rows0 fin0].
  destruct o as [opty opipe ostart pid]. simpl.
  run_cases; (split; [done|split; [done|split]]).
  all: try (intros ? ? Hin; repeat (apply elem_of_cons in Hin as [[=]|Hin]);
            by apply elem_of_nil in Hin).
  all: repeat split; try done.
  all: try (intros [[=]|[? [=]]]; done).
  all: try (intros [->|[? [=]]]; reflexivity).
  all: try (intros g Hin; repeat (apply elem_of_cons in Hin as [->|Hin]); try done;
            by apply elem_of_nil in Hin).
  all: try (intros f [= <-]; by left).
  all: try (intros f Hf; by right).
Qed.

Ltac open_request s o req :=
  destruct s as [env0 cmd0 ptmx0 want0 cols0 rows0 fin0];
  destruct o as [opty opipe ostart opid];
  destruct req as [type want payload]; simpl; run_cases.

Ltac in_list H :=
  repeat (apply elem_of_cons in H as [H|H]); try (by apply elem_of_nil in H).

Lemma handle_request_env o req s :
  env s `prefix_of` env (handle_request h o req s).1.2.
Proof.
  open_request s o req; first [reflexivity | by apply prefix_app_r].
Qed.

Lemma handle_request_cmd o req s c :
  cmd (handle_request h o req s).1.2 = Some c ->
  cmd s = Some c
  \/ (cmd s = None /\ Path c = shell h /\ Dir c = "/" /\ Env c = env s
      /\ Process c = Some (new_pid o) /\ env (handle_request h o req s).1.2 = env s
      /\ omap spawned_child (handle_request h o req s).2 = [new_pid o]
      /\ (Args c = [shell h]
          \/ exists command, command <> "" /\ Args c = [shell h; "-c"; command])).
Proof.
  open_request s o req; intros Hc; try done; try (by left).
  all: right; injection Hc as <-; simpl; repeat split; try done.
  all: first
    [ by left
    | right; eexists; split; [|reflexivity]; intros Hx;
      match goal with H : negb (String.eqb _ _) = true |- _ =>
        rewrite Hx in H; discriminate H end ].
Qed.

Lemma handle_request_ptmx o req s f' :
  ptmx (handle_request h o req s).1.2 = Some f' ->
  (exists f, ptmx s = Some f /\ (closed f = true -> f' = f))
  \/ (cmd s = None /\ is_Some (cmd (handle_request h o req s).1.2)
      /\ closed f' = false).
Proof.
  open_request s o req; intros Hf; try done.
  all: try (left; exists f'; split; done).
  all: try (left; eexists; split; [reflexivity|]; intros Hcl; congruence).
  all: try (left; eexists; split; [reflexivity|]; intros Hcl; simpl in Hcl;
            congruence).
  all: try (right; injection Hf as <-; repeat split; by eauto).
Qed.

Lemma handle_request_signal o req s pid sig :
  EvSignal pid sig ∈ (handle_request h o req s).2 ->
  exists c, cmd s = Some c /\ Process c = Some pid.
Proof.
  open_request s o req; intros Hin; in_list Hin; try done.
  all: injection Hin as -> ->; eexists; split; [reflexivity|done].
Qed.

Lemma handle_request_reaper o req s g :
  g ∈ omap spawned_goroutine (handle_request h o req s).2 ->
  invariants.is_reaper g = true ->
  is_Some (cmd (handle_request h o req s).1.2).
Proof.
  open_request s o req; intros Hin Hg; in_list Hin; subst; try done; by eexists.
Qed.
End ChildFacts.


Lemma finished_Do_shape err s :
  let r := finished_Do err s in
  env r.1.2 = env s /\ cmd r.1.2 = cmd s
  /\ (forall pid sig, EvSignal pid sig ∉ r.2)
  /\ omap spawned_goroutine r.2 = [] /\ omap spawned_child r.2 = []
  /\ (if finished s then r.1.2 = s
      else finished r.1.2 = true /\ forall f, ptmx r.1.2 = Some f -> closed f = true).
Proof.
  destruct s as [env0 cmd0 ptmx0 want0 cols0 rows0 fin0]. simpl.
  run_cases; split_and!; try done.
  all: try (intros pid sig Hin;
            repeat (apply elem_of_cons in Hin as [Hin|Hin]); try done;
            by apply elem_of_nil in Hin).
  all: intros f' [= <-]; done.
Qed.

Lemma ctx_watch_shape s :
  let r := ctx_watch s in
  r.1.2 = s
  /\ (forall pid sig, EvSignal pid sig ∈ r.2 ->
        exists c, cmd s = Some c /\ Process c = Some pid)
  /\ omap spawned_goroutine r.2 = [] /\ omap spawned_child r.2 = [].
Proof.
  destruct s as [env0 cmd0 ptmx0 want0 cols0 rows0 fin0]. simpl.
  run_cases; split_and!; try done.
  all: intros pid sig Hin; repeat (apply elem_of_cons in Hin as [Hin|Hin]);
    try (by apply elem_of_nil in Hin).
  injection Hin as -> ->. eexists. split; [reflexivity|done].
Qed.

Section ChildInvariant.
Context {U : Unmarshal}.
Variable h : sessionHandler.
Variable environ : list string.

Local Abbreviation child_inv := (invariants.child_inv h environ).

Lemma initial_child_inv : child_inv (initial_world h environ).
Proof.
  split; simpl; try done; try reflexivity.
  - intros g Hin. by apply elem_of_nil in Hin.
  - intros pid sig Hin. by apply elem_of_nil in Hin.
Qed.

(** Steps that leave the session variables alone and add no signal. *)
Lemma child_inv_frame w w' :
  child_inv w -> vars w' = vars w -> children w' = children w ->
  (forall g, g ∈ goroutines w' -> invariants.is_reaper g = true ->
     exists g0, g0 ∈ goroutines w /\ invariants.is_reaper g0 = true) ->
  (forall pid sig, EvSignal pid sig ∈ trace w' -> EvSignal pid sig ∈ trace w) ->
  child_inv w'.
Proof.
  intros [Hbase Hchild Hptmx Hreap Hfin Hsig] Hv Hc Hg Ht.
  split; rewrite ?Hv, ?Hc; try done.
  - intros g Hin Hr. destruct (Hg g Hin Hr) as (g0 & Hin0 & Hr0). by apply (Hreap g0).
  - intros pid sig Hin. apply (Hsig pid sig). by apply Ht.
Qed.

Lemma step_child_inv w w' :
  step h w w' -> session_inv w -> child_inv w -> child_inv w'.
Proof.
  intros Hstep Hinv Hci.
  destruct Hstep as [o req w Hopen|w Hopen|pid w Hchild Hfresh
                    |c pid err g1 g2 w Hg Hpid Hdead|err g1 g2 w Hg|w|g1 g2 w Hg Hdone].
  - (* a request *)
    destruct Hci as [Hbase Hchild Hptmx Hreap Hfin Hsig].
    pose proof (handle_request_effect h o req (vars w)) as (Hf & _ & Heff).
    pose proof (handle_request_env h o req (vars w)) as Henv.
    pose proof (handle_request_cmd h o req (vars w)) as Hcmd.
    pose proof (handle_request_ptmx h o req (vars w)) as Hpt.
    pose proof (handle_request_signal h o req (vars w)) as Hsg.
    pose proof (handle_request_reaper h o req (vars w)) as Hrp.
    pose proof (inv_single w Hinv) as Hsingle.
    destruct (handle_request h o req (vars w)) as [[[] s'] evs] eqn:Hrun.
    simpl in *. rewrite (run_eq _ _ _ _ _ Hrun).
    split; simpl.
    + by etrans.
    + intros c Hc. destruct (Hcmd c Hc) as [Hold|(Hnone & HP & HD & HE & HPr & Hsame & Hsp & HA)].
      * destruct (Hchild c Hold) as (Hst & Hpre & pid & Hpid & Hch).
        rewrite Hold in Heff. destruct Heff as (_ & -> & _). rewrite app_nil_r.
        split; [done|]. split; [by etrans|]. by exists pid.
      * rewrite Hnone in Hsingle. rewrite Hsingle, Hsp. simpl.
        split; [|split; [|by exists (new_pid o)]].
        -- repeat split; try done. by rewrite HE.
        -- by rewrite HE, Hsame.
    + intros [f' Hf']. destruct (Hpt f' Hf') as [(f & Hfs & _)|(_ & Hc & _)]; [|done].
      assert (Hsome : is_Some (cmd (vars w))) by (apply Hptmx; by eexists).
      destruct Hsome as [c Hc]. rewrite Hc in Heff. destruct Heff as (-> & _). by eexists.
    + intros g [Hin|Hin]%elem_of_app Hr.
      * destruct (Hreap g Hin Hr) as [c Hc]. rewrite Hc in Heff.
        destruct Heff as (-> & _). by eexists.
      * by apply (Hrp g).
    + rewrite Hf. intros Hfinished. destruct (Hfin Hfinished) as [[c Hc] Hclosed].
      rewrite Hc in Heff. destruct Heff as (Hc' & _). split; [by eexists|].
      intros f' Hf'. destruct (Hpt f' Hf') as [(f & Hfs & Hsame)|(Hnone & _)]; [|congruence].
      pose proof (Hclosed f Hfs) as Hcl. by rewrite (Hsame Hcl).
    + intros pid sig [Hin|Hin]%elem_of_app.
      * apply elem_of_app. left. by apply (Hsig pid sig).
      * destruct (Hsg pid sig Hin) as (c & Hc & Hpid).
        destruct (Hchild c Hc) as (_ & _ & pid' & Hpid' & Hch).
        rewrite Hc in Heff. destruct Heff as (_ & -> & _). rewrite app_nil_r, Hch.
        apply list_elem_of_singleton. congruence.
  - (* the request stream closes *)
    apply (child_inv_frame w); try done; simpl.
    + intros g Hin Hr. by exists g.
    + intros pid sig [Hin|Hin]%elem_of_app; [done|].
      repeat (apply elem_of_cons in Hin as [[=]|Hin]). by apply elem_of_nil in Hin.
  - (* the child dies *)
    apply (child_inv_frame w); try done; simpl.
    + intros g Hin Hr. by exists g.
    + intros pid' sig [Hin|Hin]%elem_of_app; [done|].
      by apply list_elem_of_singleton in Hin.
  - (* Wait returns *)
    apply (child_inv_frame w); try done; simpl.
    + intros g Hin Hr. exists (GoReaperWait c). split; [|done].
      rewrite Hg. apply elem_of_app. right. by left.
    + intros pid' sig [Hin|Hin]%elem_of_app; [done|].
      by apply list_elem_of_singleton in Hin.
  - (* finished.Do *)
    destruct Hci as [Hbase Hchild Hptmx Hreap Hfin Hsig].
    pose proof (finished_Do_shape err (vars w)) as (Henv & Hcmd & Hnosig & Hgo & Hch & Hdone).
    assert (Hsome : is_Some (cmd (vars w))).
    { apply (Hreap (GoReaperDo err)); [|done]. rewrite Hg. apply elem_of_app. right. by left. }
    destruct (finished_Do err (vars w)) as [[[] s'] evs] eqn:Hrun.
    simpl in *. rewrite (run_eq _ _ _ _ _ Hrun).
    split; simpl; rewrite ?Hch, ?Hgo, ?app_nil_r, ?Henv, ?Hcmd; try done.
    + destruct (finished (vars w)) eqn:Hfw.
      * subst s'. intros _. by apply Hfin.
      * intros _. split; [done|]. by destruct Hdone.
    + intros pid sig [Hin|Hin]%elem_of_app; [by apply (Hsig pid sig)|]. by apply (Hnosig pid sig) in Hin.
  - (* the context is cancelled *)
    apply (child_inv_frame w); try done; simpl. intros g Hin Hr. by exists g.
  - (* the watcher wakes up *)
    destruct Hci as [Hbase Hchild Hptmx Hreap Hfin Hsig].
    pose proof (ctx_watch_shape (vars w)) as (Hsame & Hsg & Hgo & Hch).
    destruct (ctx_watch (vars w)) as [[[] s'] evs] eqn:Hrun.
    simpl in *. subst s'. rewrite (run_eq _ _ _ _ _ Hrun).
    split; simpl; rewrite ?Hch, ?Hgo, ?app_nil_r; try done.
    + intros g Hin Hr. apply (Hreap g); [|done]. rewrite Hg.
      apply elem_of_app in Hin as [Hin|Hin]; apply elem_of_app; [by left|].
      right. by right.
    + intros pid sig [Hin|Hin]%elem_of_app; [by apply (Hsig pid sig)|].
      destruct (Hsg pid sig Hin) as (c & Hc & Hpid).
      destruct (Hchild c Hc) as (_ & _ & pid' & Hpid' & ->).
      apply list_elem_of_singleton. congruence.
Qed.
End ChildInvariant.


Section ChildReachable.
Context {U : Unmarshal}.
Variable h : sessionHandler.
Variable environ : list string.

Lemma reachable_child_inv w :
  reachable h environ w -> session_inv w /\ invariants.child_inv h environ w.
Proof.
  intros Hreach.
  apply (rtc_ind_r (R := step h)
           (fun w => session_inv w /\ invariants.child_inv h environ w)
           (initial_world h environ));
    [split; [apply initial_inv|apply initial_child_inv]| |exact Hreach].
  intros w1 w2 _ Hstep [Hinv Hci]. split; [by eapply step_inv|by eapply step_child_inv].
Qed.
End ChildReachable.


(** X13: in every state a session reaches, every signal sent so far, by a
    [signal] request or by the context watcher, went to the one child the
    session spawned. *)
Theorem signals_go_to_the_session_child_only
    (U : Unmarshal) (h : sessionHandler) (environ : list string) (w : world)
    (pid : Z) (sig : Signal) :
  reachable h environ w ->
  EvSignal pid sig ∈ trace w ->
  children w = [pid]
  /\ exists c, cmd (vars w) = Some c /\ Process c = Some pid.
Proof.
  intros Hreach Hin. destruct (reachable_child_inv h environ w Hreach) as [Hinv Hci].
  pose proof (invariants.inv_signal h environ w Hci pid sig Hin) as Hchild.
  pose proof (inv_single w Hinv) as Hsingle.
  destruct (cmd (vars w)) as [c|] eqn:Hc.
  - destruct (invariants.inv_child h environ w Hci c Hc) as (_ & _ & pid' & Hpid' & Hch).
    rewrite Hch in Hchild. apply list_elem_of_singleton in Hchild. subst pid'.
    split; [done|]. by exists c.
  - rewrite Hsingle in Hchild. by apply elem_of_nil in Hchild.
Qed.

(** X14: in every state a session reaches with the [Once] done, exactly
    one "exit-status" request was sent, a child handle is set, the PTY
    master, if there is one, is closed, and a [window-change] request no
    longer changes it. *)
Theorem pty_master_closed_once_exit_status_sent
    (U : Unmarshal) (h : sessionHandler) (environ : list string) (w : world) :
  reachable h environ w ->
  finished (vars w) = true ->
  length (filter is_exit_status (trace w)) = 1%nat
  /\ is_Some (cmd (vars w))
  /\ (forall f, ptmx (vars w) = Some f -> closed f = true)
  /\ forall o want payload,
       ptmx (handle_request h o (mkRequest "window-change" want payload) (vars w)).1.2
       = ptmx (vars w).
Proof.
  intros Hreach Hfin. destruct (reachable_child_inv h environ w Hreach) as [Hinv Hci].
  destruct (invariants.inv_finished h environ w Hci Hfin) as [Hcmd Hclosed].
  split_and!; try done.
  - by rewrite (inv_exit_count w Hinv), Hfin.
  - intros o want payload. destruct (vars w) as [env0 cmd0 [f|] want0 cols0 rows0 fin0].
    + specialize (Hclosed f eq_refl). destruct f as [cl sz]. simpl in Hclosed. subst cl.
      run_session. destruct (unmarshal_windowChange payload); simpl; by destruct want.
    + run_session. by destruct want.
Qed.

(** X15: in every state a session reaches, a [start] that returns an error
    leaves the session variables as they were and spawns no child, and a
    [start] that returns no error found no child handle and sets one. *)
Theorem failed_start_changes_nothing
    (U : Unmarshal) (h : sessionHandler) (environ : list string) (w : world)
    (o : spawn_outcome) (command : string) :
  reachable h environ w ->
  let r := start h o command (vars w) in
  match r.1.1 with
  | Some _ => r.1.2 = vars w /\ omap spawned_child r.2 = []
  | None => cmd (vars w) = None /\ is_Some (cmd r.1.2)
  end.
Proof.
  intros Hreach r. subst r. destruct (reachable_child_inv h environ w Hreach) as [_ Hci].
  pose proof (invariants.inv_ptmx_cmd h environ w Hci) as Hptmx.
  pose proof (start_shape h o command (vars w)) as (_ & _ & _ & Hshape).
  pose proof (start_effect h o command (vars w)) as (_ & _ & Heff).
  destruct ((start h o command (vars w)).1.1) as [err|] eqn:Hres.
  - destruct Hshape as (_ & Hsame & _). split.
    + apply Hsame. destruct (ptmx (vars w)) as [f|]; [right|by left].
      apply Hptmx. by eexists.
    + destruct (cmd (vars w)) as [c|] eqn:Hc.
      * by rewrite Heff.
      * destruct Heff as [(_ & _ & Hno & _)|(Hnone & _)]; done.
  - destruct Hshape as (Hnone & Hcmd & _). split; [done|]. rewrite Hcmd. by eexists.
Qed.



(** ** The properties at sample inputs *)

Lemma world_running_reachable :
  reachable (U := wire.unmarshal) samples.demo [] samples.world_running.
Proof.
  apply rtc_once.
  exact (step_request samples.demo samples.spawn_ok samples.shell_request
           (initial_world samples.demo []) eq_refl).
Qed.

Lemma world_signalled_reachable :
  reachable (U := wire.unmarshal) samples.demo [] more_samples.world_signalled.
Proof.
  eapply rtc_r; [apply world_running_reachable|].
  exact (step_request samples.demo samples.spawn_ok more_samples.signal_request
           samples.world_running eq_refl).
Qed.

Lemma world_pty_running_reachable :
  reachable (U := wire.unmarshal) samples.demo [] more_samples.world_pty_running.
Proof.
  unfold reachable.
  apply (rtc_l _ _ more_samples.world_pty_requested).
  { exact (step_request samples.demo samples.spawn_ok samples.pty_request
             (initial_world samples.demo []) eq_refl). }
  apply rtc_once.
  exact (step_request samples.demo samples.spawn_ok samples.shell_request
           more_samples.world_pty_requested eq_refl).
Qed.

Lemma world_pty_reported_reachable :
  reachable (U := wire.unmarshal) samples.demo [] more_samples.world_pty_reported.
Proof.
  eapply rtc_r; [eapply rtc_r; [eapply rtc_r; [apply world_pty_running_reachable|]|]|].
  - apply (step_child_exit samples.demo 100 more_samples.world_pty_running).
    + apply list_elem_of_singleton. reflexivity.
    + apply not_elem_of_nil.
  - apply (step_wait_return samples.demo more_samples.pty_child 100 None
             [GoCopyPtyToChannel; GoCopyChannelToPty; GoCtxWatch] []
             more_samples.world_pty_dead).
    + reflexivity.
    + reflexivity.
    + apply list_elem_of_singleton. reflexivity.
  - exact (step_finished_do samples.demo None
             [GoCopyPtyToChannel; GoCopyChannelToPty; GoCtxWatch] []
             more_samples.world_pty_waited eq_refl).
Qed.


Lemma signal_in_trace : EvSignal 100 SIGINT ∈ trace more_samples.world_signalled.
Proof.
  change (trace more_samples.world_signalled)
    with (trace samples.world_running ++ [EvSignal 100 SIGINT; EvReply true]).
  apply elem_of_app. right. by left.
Qed.

Lemma signals_go_to_the_session_child_only_witness :
  children more_samples.world_signalled = [100]
  /\ exists c, cmd (vars more_samples.world_signalled) = Some c /\ Process c = Some 100.
Proof.
  exact (signals_go_to_the_session_child_only wire.unmarshal samples.demo []
           more_samples.world_signalled 100 SIGINT world_signalled_reachable
           signal_in_trace).
Defined.

Lemma pty_master_closed_once_exit_status_sent_witness :
  length (filter is_exit_status (trace more_samples.world_pty_reported)) = 1%nat
  /\ is_Some (cmd (vars more_samples.world_pty_reported))
  /\ (forall f, ptmx (vars more_samples.world_pty_reported) = Some f -> closed f = true)
  /\ forall o want payload,
       ptmx (handle_request (U := wire.unmarshal) samples.demo o
               (mkRequest "window-change" want payload)
               (vars more_samples.world_pty_reported)).1.2
       = ptmx (vars more_samples.world_pty_reported).
Proof.
  exact (pty_master_closed_once_exit_status_sent wire.unmarshal samples.demo []
           more_samples.world_pty_reported world_pty_reported_reachable eq_refl).
Defined.

Lemma failed_start_changes_nothing_witness :
  (start samples.demo more_samples.spawn_fails ""
     (initial samples.demo [])).1.2 = initial samples.demo []
  /\ omap spawned_child
       (start samples.demo more_samples.spawn_fails ""
          (initial samples.demo [])).2 = [].
Proof.
  exact (failed_start_changes_nothing wire.unmarshal samples.demo []
           (initial_world samples.demo []) more_samples.spawn_fails ""
           (rtc_refl _ _)).
Defined.



Lemma host_key_created_once_then_reused_witness :
  let load := loadOrCreateHostKey unit (list Byte.byte) (fun _ => inl tt)
                (fun _ => bytes_of_string "KEY") (fun _ b => b) (fun b => inl b) in
  let fs' := <[samples.key_path := RegFile (bytes_of_string "KEY") perm_key]>
               more_samples.fs_without_key in
  (exists key : unit,
     (inl tt : unit + error) = inl key
     /\ fs' !! samples.key_path = Some (RegFile (bytes_of_string "KEY") perm_key))
  /\ dirs_exist fs' (filepath_Dir samples.key_path)
  /\ (forall q n, more_samples.fs_without_key !! q = Some n -> fs' !! q = Some n)
  /\ load samples.key_path fs'
     = (inl (bytes_of_string "KEY"), fs',
        [CallMkdirAll (filepath_Dir samples.key_path) perm_dir;
         CallReadFile samples.key_path]).
Proof.
  refine (host_key_created_once_then_reused unit (list Byte.byte) (fun _ => inl tt)
            (fun _ => bytes_of_string "KEY") (fun _ b => b) (fun b => inl b)
            samples.key_path more_samples.fs_without_key
            (<[samples.key_path := RegFile (bytes_of_string "KEY") perm_key]>
               more_samples.fs_without_key)
            (bytes_of_string "KEY")
            [CallMkdirAll (filepath_Dir samples.key_path) perm_dir;
             CallReadFile samples.key_path;
             CallWriteFile samples.key_path (bytes_of_string "KEY") perm_key] _ _).
  - vm_compute. reflexivity.
  - vm_compute. reflexivity.
Defined.



